(** * COBS: compact-index asynchronous backend, document lists and the
      multi-size Bloom filter build

    A shallow embedding of
    - [isi/query/compact_index/aio.cpp]   (module [Aio]),
    - [cobs/document_list.hpp]            (module [DocList]),
    - the [genome::msbf] build driver     (module [Msbf]),
    together with the properties of the specification that concern them.

    Conventions.  Unsigned 64-bit quantities ([size_t], [uint64_t]) are
    values of [N] and every arithmetic operation of the source on them is
    followed by [wrap64]; signed results of system calls are values of [Z].
    Arrays ([std::vector], [std::array]) are lists read with [!!] / [!!!]
    and written with [<[_:=_]>] / [alter]. *)

From Stdlib Require Import ZArith NArith Lia Sorting.Sorted Sorting.Permutation.
From Stdlib Require Import Strings.String Strings.Ascii Structures.OrderedTypeEx.
From Stdlib Require Import Decimal DecimalString DecimalN DecimalPos.
From stdpp Require Import base list strings numbers.

#[local] Open Scope N_scope.

(** ** Outcomes of fallible code *)

(** [Ok v]: the function returned [v].  [Exit msg]: the process was
    terminated through [assert_exit] / [exit_error_errno] with message
    [msg].  [Fault what]: the source performs an operation whose behaviour
    C++ leaves undefined (an out-of-range store, a division by zero). *)
Inductive result (A : Type) : Type :=
| Ok (v : A)
| Exit (msg : string)
| Fault (what : string).
Arguments Ok {A} v.
Arguments Exit {A} msg.
Arguments Fault {A} what.

Definition wrap64 (n : N) : N := n mod 2 ^ 64.

(* ===================================================================== *)
Module Aio.

(** *** Data *)

(** One entry of [m_header.parameters()]; only [signature_size] is read by
    the backend. *)
Record parameter := MkParameter { signature_size : N; num_hashes : N }.

Record header := Header {
  page_size : N;
  parameters : list parameter
}.

#[export] Instance parameter_inhabited : Inhabited parameter :=
  populate (MkParameter 0 0).

(** The kernel's [struct iocb], restricted to the fields the backend
    writes. *)
Record iocb := Iocb {
  aio_fildes : Z;
  aio_lio_opcode : N;
  aio_buf : N;
  aio_nbytes : N;
  aio_offset : N
}.

#[export] Instance iocb_inhabited : Inhabited iocb :=
  populate (Iocb 0 0 0 0 0).

Definition IOCB_CMD_PREAD : N := 0.

(** The object state.  [m_iocbpp] holds pointers into [m_iocbs]; a pointer
    is represented by the index it points to, so that the aliasing between
    the two arrays is kept. *)
Record aio := Aio_ {
  m_header : header;
  m_offsets : list N;
  m_fd : Z;
  m_ctx : N;
  m_iocbs : list iocb;
  m_iocbpp : list nat
}.

Definition num_sub_indices (h : header) : nat := length (parameters h).

(** *** Constructor, [aio::aio] (lines 12-34) *)

(** Body of the loop at lines 17-19:
    [m_offsets[i] = m_offsets[i-1] + page_size * parameters[i-1].signature_size]. *)
Definition offsets_step (h : header) (offs : list N) (i : nat) : list N :=
  <[ i := wrap64 (offs !!! (i - 1)%nat
                  + wrap64 (page_size h * signature_size (parameters h !!! (i - 1)%nat))) ]>
    offs.

(** Lines 15-19.  [m_offsets.resize(S)] value-initialises the vector. *)
Definition compute_offsets (h : header) (curr_pos : N) : list N :=
  foldl (offsets_step h)
        (<[ 0%nat := curr_pos ]> (replicate (num_sub_indices h) 0))
        (seq 1 (num_sub_indices h - 1)).

(** Body of the loop at lines 28-33 on the control block [i]. *)
Definition init_iocb (fd : Z) (h : header) (c : iocb) : iocb :=
  {| aio_fildes := fd;
     aio_lio_opcode := IOCB_CMD_PREAD;
     aio_buf := aio_buf c;
     aio_nbytes := page_size h;
     aio_offset := aio_offset c |}.

(** The constructor.  Taken from the environment: [os_page_size], the value
    of [isi::get_page_size()]; [curr_pos], the stream position
    [m_smd.curr_pos] left by the base-class constructor after the header;
    [fd], the descriptor returned by [open_file]; [io_setup_ret] and [ctx],
    what [io_setup] returns; [raw_iocbs], the storage of [m_iocbs] before
    the loop at lines 28-33 runs (its length is the capacity declared in
    the class). *)
Definition construct (os_page_size : N) (h : header) (curr_pos : N)
    (fd : Z) (io_setup_ret : Z) (ctx : N) (raw_iocbs : list iocb) : result aio :=
  if negb (page_size h mod os_page_size =? 0) then
    Exit "page size needs to be divisible by 4096 so the index can be opened with O_DIRECT"
  else if (num_sub_indices h =? 0)%nat then
    Fault "m_offsets[0] written on an empty vector"
  else if (io_setup_ret <? 0)%Z then
    Exit "io_setup error"
  else
    Ok {| m_header := h;
          m_offsets := compute_offsets h curr_pos;
          m_fd := fd;
          m_ctx := ctx;
          m_iocbs := init_iocb fd h <$> raw_iocbs;
          m_iocbpp := seq 0 (length raw_iocbs) |}.

(** *** [aio::read_from_disk] (lines 44-78) *)

(** Body of the doubly nested loop, lines 53-55, for the iteration [(i, j)].
    Both stores go to [m_iocbs[i]].  (A [signature_size] of zero and an
    index [i] beyond the capacity of [m_iocbs] are undefined in the source;
    here the remainder is the hash itself and the store is dropped.) *)
Definition setup_iteration (a : aio) (hashes : list N) (rows : N)
    (iocbs : list iocb) (ij : nat * nat) : list iocb :=
  let '(i, j) := ij in
  let h := m_header a in
  let hash := (hashes !!! j) mod signature_size (parameters h !!! i) in
  let buf := wrap64 (rows + wrap64 (wrap64 (N.of_nat i
                     + wrap64 (N.of_nat j * N.of_nat (num_sub_indices h)))
                     * page_size h)) in
  let off := wrap64 (m_offsets a !!! i + wrap64 (hash * page_size h)) in
  alter (λ c, {| aio_fildes := aio_fildes c;
                 aio_lio_opcode := aio_lio_opcode c;
                 aio_buf := buf;
                 aio_nbytes := aio_nbytes c;
                 aio_offset := off |}) i iocbs.

(** The iteration space of the collapsed loop nest in sequential order:
    [i] outer over the sub-indices, [j] inner over the hashes. *)
Definition iteration_space (S R : nat) : list (nat * nat) :=
  i ← seq 0 S; (λ j, (i, j)) <$> seq 0 R.

(** Lines 51-57 run in the order [order] of the iterations. *)
Definition setup_in_order (order : list (nat * nat)) (a : aio)
    (hashes : list N) (rows : N) : list iocb :=
  foldl (setup_iteration a hashes rows) (m_iocbs a) order.

Definition setup (a : aio) (hashes : list N) (rows : N) : list iocb :=
  setup_in_order
    (iteration_space (num_sub_indices (m_header a)) (length hashes))
    a hashes rows.

(** [int64_t num_requests = parameters().size() * hashes.size()], line 59. *)
Definition num_requests (a : aio) (hashes : list N) : Z :=
  let n := wrap64 (N.of_nat (num_sub_indices (m_header a)) * N.of_nat (length hashes)) in
  if n <? 2 ^ 63 then Z.of_N n else (Z.of_N n - 2 ^ 64)%Z.

(** System calls issued by the backend, in program order. *)
Inductive syscall :=
| IoSubmit (nr : Z) (requests : list iocb)
| IoGetevents (min_nr nr : Z).

(** The control blocks handed to the kernel by
    [io_submit(m_ctx, num_requests, m_iocbpp.data())]: those the first
    [num_requests] pointers of [m_iocbpp] point to. *)
Definition submitted (a : aio) (iocbs : list iocb) (nr : Z) : list iocb :=
  (λ p, iocbs !!! p) <$> take (Z.to_nat nr) (m_iocbpp a).

(** [read_from_disk].  The answers of the kernel are inputs:
    [io_submit_ret] is the value returned by [io_submit] and
    [io_getevents_ret] the value returned by [io_getevents].  The result is
    the object after the call, the system calls made, and how the call
    ended. *)
Definition read_from_disk (io_submit_ret io_getevents_ret : Z)
    (a : aio) (hashes : list N) (rows : N) : aio * list syscall * result unit :=
  let iocbs := setup a hashes rows in
  let a' := {| m_header := m_header a; m_offsets := m_offsets a;
               m_fd := m_fd a; m_ctx := m_ctx a;
               m_iocbs := iocbs; m_iocbpp := m_iocbpp a |} in
  let nr := num_requests a hashes in
  let submit := IoSubmit nr (submitted a iocbs nr) in
  if negb (io_submit_ret =? nr)%Z then
    (a', [submit], Exit "io_submit error")
  else if (io_getevents_ret <? nr)%Z then
    (a', [submit; IoGetevents nr nr], Exit "io_getevents error")
  else
    (a', [submit; IoGetevents nr nr], Ok ()).

(** *** What the specification asks of a probe *)

(** Number of rows of all sub-indices. *)
Definition total_rows (params : list parameter) : N :=
  foldr (λ p n, signature_size p + n) 0 params.

(** The offset the layout assigns to sub-index [s]. *)
Definition base (h : header) (curr_pos : N) (s : nat) : N :=
  curr_pos + page_size h * total_rows (take s (parameters h)).

(** The read request for the pair (sub-index [i], hash [j]): the page at
    [base_i + (h_j mod m_i) * P], read into the region [i + j * S] of
    [rows]. *)
Definition page_request (a : aio) (hashes : list N) (rows : N)
    (ij : nat * nat) : iocb :=
  let h := m_header a in
  {| aio_fildes := m_fd a;
     aio_lio_opcode := IOCB_CMD_PREAD;
     aio_buf := rows + (N.of_nat ij.1 + N.of_nat ij.2 * N.of_nat (num_sub_indices h))
                       * page_size h;
     aio_nbytes := page_size h;
     aio_offset := m_offsets a !!! ij.1
                   + ((hashes !!! ij.2) mod signature_size (parameters h !!! ij.1))
                     * page_size h |}.

Definition page_requests (a : aio) (hashes : list N) (rows : N) : list iocb :=
  page_request a hashes rows
    <$> iteration_space (num_sub_indices (m_header a)) (length hashes).

(** The requests a run handed to [io_submit]. *)
Definition requests_of (run : aio * list syscall * result unit) : list iocb :=
  match run.1.2 with
  | IoSubmit _ requests :: _ => requests
  | _ => []
  end.

(** A probe survives a short submission: it returns to its caller. *)
Definition survives_short_submit (io_submit_ret io_getevents_ret : Z)
    (a : aio) (hashes : list N) (rows : N) : Prop :=
  (0 ≤ io_submit_ret < num_requests a hashes)%Z →
  (read_from_disk io_submit_ret io_getevents_ret a hashes rows).2 = Ok ().

(** *** A small index: one sub-index of four rows behind a one-page header *)

Definition small_header : header := Header 4096 [MkParameter 4 1].

Definition small_index : aio :=
  {| m_header := small_header;
     m_offsets := compute_offsets small_header 4096;
     m_fd := 3;
     m_ctx := 0;
     m_iocbs := init_iocb 3 small_header <$> replicate 4 (Iocb 0 0 0 0 0);
     m_iocbpp := seq 0 4 |}.

Definition small_rows : N := 1048576.

(** Three sub-indices of 4, 2 and 8 rows. *)
Definition three_sub_indices : header :=
  Header 4096 [MkParameter 4 1; MkParameter 2 1; MkParameter 8 1].

(** *** The object between probes *)

(** The fields of a control block that the constructor sets once (lines
    29-31) and a probe is not to change. *)
Definition initialised (a : aio) (c : iocb) : Prop :=
  aio_fildes c = m_fd a
  ∧ aio_lio_opcode c = IOCB_CMD_PREAD
  ∧ aio_nbytes c = page_size (m_header a).

(** Every control block is initialised and the [k]-th pointer of
    [m_iocbpp] points to the [k]-th control block. *)
Definition well_formed (a : aio) : Prop :=
  Forall (initialised a) (m_iocbs a)
  ∧ m_iocbpp a = seq 0 (length (m_iocbs a)).

(** The control block [c] after the two stores of lines 54-55 in the
    iteration [(i, j)]. *)
Definition written (a : aio) (hashes : list N) (rows : N)
    (ij : nat * nat) (c : iocb) : iocb :=
  let h := m_header a in
  {| aio_fildes := aio_fildes c;
     aio_lio_opcode := aio_lio_opcode c;
     aio_buf := wrap64 (rows + wrap64 (wrap64 (N.of_nat ij.1
                  + wrap64 (N.of_nat ij.2 * N.of_nat (num_sub_indices h)))
                  * page_size h));
     aio_nbytes := aio_nbytes c;
     aio_offset := wrap64 (m_offsets a !!! ij.1
                     + wrap64 (((hashes !!! ij.2)
                                mod signature_size (parameters h !!! ij.1))
                               * page_size h)) |}.

(** A header with four sub-indices and an object opened on it. *)
Definition four_sub_indices : header :=
  Header 4096 [MkParameter 4 1; MkParameter 2 1; MkParameter 8 1; MkParameter 1 1].

Definition four_index : aio :=
  {| m_header := four_sub_indices;
     m_offsets := compute_offsets four_sub_indices 8192;
     m_fd := 5;
     m_ctx := 0;
     m_iocbs := init_iocb 5 four_sub_indices <$> replicate 16 (Iocb 0 0 7 0 9);
     m_iocbpp := seq 0 (length (replicate 16 (Iocb 0 0 7 0 9))) |}.

End Aio.

(* ===================================================================== *)
Module DocList.

(** *** Paths *)

(** [fs::path] is represented by its string.  [filename] and [extension]
    follow the filesystem library: the file name is what follows the last
    directory separator, and the extension is the part of the file name
    from its last period on (empty for [.] and [..]). *)
Definition path := string.

Fixpoint filename_from (p cur : string) : string :=
  match p with
  | EmptyString => cur
  | String c r => if Ascii.eqb c "/" then filename_from r r else filename_from r cur
  end.

Definition filename (p : path) : string := filename_from p p.

Fixpoint extension_from (f cur : string) : string :=
  match f with
  | EmptyString => cur
  | String c r => if Ascii.eqb c "." then extension_from r f else extension_from r cur
  end.

Definition extension (p : path) : string :=
  let f := filename p in
  if String.eqb f "." || String.eqb f ".." then EmptyString
  else extension_from f EmptyString.

Fixpoint has_slash (s : string) : bool :=
  match s with
  | EmptyString => false
  | String c r => Ascii.eqb c "/" || has_slash r
  end.

(** [path::operator<], as the lexicographic order of the strings. *)
Definition path_ltb (p q : path) : bool := String.ltb p q.

(** *** Entries *)

Inductive FileType := Any | Text | Cortex | KMerBuffer | Fasta | Fastq.

Record DocumentEntry := MkEntry {
  path_ : path;
  type_ : FileType;
  size_ : N;
  subdoc_index_ : N
}.

(** [DocumentEntry::operator<] (lines 45-47). *)
Definition lt (a b : DocumentEntry) : bool := path_ltb (path_ a) (path_ b).

(** Equivalence induced by [operator<], the notion of "equal" that
    [std::sort] and the ordered containers use. *)
Definition equiv (a b : DocumentEntry) : Prop := lt a b = false ∧ lt b a = false.

(** *** [std::sort] *)

(** The library routine is modelled by the straight insertion sort it runs
    on short ranges: the elements are taken from left to right and each one
    is moved towards the front past the elements it compares less than.
    Only the comparator is used. *)
Section std_sort.
Context {A : Type} (less : A → A → bool).

Fixpoint linear_insert (x : A) (l : list A) : list A :=
  match l with
  | [] => [x]
  | y :: l' => if less x y then x :: y :: l' else y :: linear_insert x l'
  end.

Definition std_sort (l : list A) : list A :=
  foldl (λ acc x, linear_insert x acc) [] l.

(** [x] is not after [y]. *)
Definition not_after (x y : A) : Prop := less y x = false.
End std_sort.

(** *** The file system seen by a scan *)

(** [dir_entries dir] is the sequence produced by
    [fs::recursive_directory_iterator(dir)]; [file_size] is
    [fs::file_size]; [fasta_sizes p] lists [FastaFile(p).size(i)] for
    [i < FastaFile(p).num_documents()]. *)
Record filesystem := MkFs {
  dir_entries : path → list path;
  file_size : path → N;
  fasta_sizes : path → list N
}.

(** *** [DocumentList] *)

(** [DocumentList::accept] (lines 76-96). *)
Definition accept (p : path) (filter : FileType) : bool :=
  match filter with
  | Any => String.eqb (extension p) ".txt"
           || String.eqb (extension p) ".ctx"
           || String.eqb (extension p) ".cobs_doc"
           || String.eqb (extension p) ".fasta"
           || String.eqb (extension p) ".fastq"
  | Text => String.eqb (extension p) ".txt"
  | Cortex => String.eqb (extension p) ".ctx"
  | KMerBuffer => String.eqb (extension p) ".cobs_doc"
  | Fasta => String.eqb (extension p) ".fasta"
  | Fastq => String.eqb (extension p) ".fastq"
  end.

(** [DocumentList::add] (lines 99-132), as a function of [list_]. *)
Definition add (fs : filesystem) (p : path) (list_ : list DocumentEntry)
    : list DocumentEntry :=
  if String.eqb (extension p) ".txt" then
    list_ ++ [MkEntry p Text (file_size fs p) 0]
  else if String.eqb (extension p) ".ctx" then
    list_ ++ [MkEntry p Cortex (file_size fs p) 0]
  else if String.eqb (extension p) ".cobs_doc" then
    list_ ++ [MkEntry p KMerBuffer (file_size fs p) 0]
  else if String.eqb (extension p) ".fasta" then
    list_ ++ imap (λ i sz, MkEntry p Fasta sz (N.of_nat i)) (fasta_sizes fs p)
  else
    list_.

(** Body of the scan loop, lines 66-71. *)
Definition scan_step (fs : filesystem) (filter : FileType)
    (list_ : list DocumentEntry) (p : path) : list DocumentEntry :=
  if accept p filter then add fs p list_ else list_.

Definition scan (fs : filesystem) (dir : path) (filter : FileType)
    : list DocumentEntry :=
  foldl (scan_step fs filter) [] (dir_entries fs dir).

(** The two constructors (lines 58-61 and 64-73); the value is [list_]. *)
Definition from_list (entries : list DocumentEntry) : list DocumentEntry :=
  std_sort lt entries.

Definition from_directory (fs : filesystem) (dir : path) (filter : FileType)
    : list DocumentEntry :=
  std_sort lt (scan fs dir filter).

(** The comparator of [sort_by_size] (lines 140-143):
    [std::tie(size, path)] compared lexicographically. *)
Definition size_path_lt (d1 d2 : DocumentEntry) : bool :=
  (size_ d1 <? size_ d2)
  || (negb (size_ d2 <? size_ d1) && path_ltb (path_ d1) (path_ d2)).

Definition sort_by_size (list_ : list DocumentEntry) : list DocumentEntry :=
  std_sort size_path_lt list_.

(** [process_each] (lines 147-151): the arguments [func] is called with,
    in call order. *)
Definition process_each (list_ : list DocumentEntry) : list DocumentEntry :=
  foldl (λ calls e, calls ++ [e]) [] list_.

(** One call [func(batch, out_file)] made by [process_batches]; [inv_j] is
    the running number printed with it. *)
Record invocation := MkInvocation {
  inv_j : N;
  inv_batch : list DocumentEntry;
  inv_out_file : string
}.

Section process_batches.
(** [cobs::base_name] is declared in a header that is not part of the
    sources at hand; the loop is parametric in it. *)
Variable base_name : path → string.

Definition out_file_name (first_filename last_filename : string) : string :=
  "[" +:+ first_filename +:+ "-" +:+ last_filename +:+ "]".

(** The loop at lines 159-184.  [rest] are the entries [list_[i..]] still
    to be visited, so that [i + 1 == list_.size()] holds exactly when
    nothing follows the current entry; the other arguments are the local
    variables of the source. *)
Fixpoint batches_loop (batch_size : N) (rest : list DocumentEntry)
    (first_filename last_filename : string) (j : N)
    (batch : list DocumentEntry) : list invocation :=
  match rest with
  | [] => []
  | e :: rest' =>
      let filename := base_name (path_ e) in
      let first_filename :=
        if String.eqb first_filename "" then filename else first_filename in
      let last_filename := filename in
      let batch := batch ++ [e] in
      if (N.of_nat (length batch) =? batch_size)
         || (negb (Nat.eqb (length batch) 0)
             && match rest' with [] => true | _ => false end)
      then
        MkInvocation j batch (out_file_name first_filename last_filename)
        :: batches_loop batch_size rest' "" last_filename (j + 1) []
      else
        batches_loop batch_size rest' first_filename last_filename j batch
  end.

Definition process_batches (batch_size : N) (list_ : list DocumentEntry)
    : list invocation :=
  batches_loop batch_size list_ "" "" 1 [].

(** The batch name of the specification for a run of entries. *)
Definition run_name (run : list DocumentEntry) : string :=
  match run, list.last run with
  | first :: _, Some final =>
      out_file_name (base_name (path_ first)) (base_name (path_ final))
  | _, _ => out_file_name "" ""
  end.
End process_batches.

(** *** What the specification asks of the order and of a scan *)

(** The order of the specification on a pair of entries: equal exactly when
    path and sub-document index agree, and ordered by sub-document index
    when the paths agree. *)
Definition orders_by_path_and_subdoc (a b : DocumentEntry) : Prop :=
  (equiv a b ↔ path_ a = path_ b ∧ subdoc_index_ a = subdoc_index_ b)
  ∧ (path_ a = path_ b → subdoc_index_ a < subdoc_index_ b → lt a b = true).

(** The list is in ascending path order. *)
Definition sorted_by_path (l : list DocumentEntry) : Prop :=
  ∀ (i j : nat) (a b : DocumentEntry),
    (i < j)%nat → l !! i = Some a → l !! j = Some b →
    path_ltb (path_ b) (path_ a) = false.

(** A scan lists the multi-record file [p] as a Fastq document. *)
Definition listed_as_fastq (p : path) (l : list DocumentEntry) : Prop :=
  ∃ e, e ∈ l ∧ path_ e = p ∧ type_ e = Fastq.

(** *** Sample inputs *)

(** Modelled from the spec: [cobs::base_name], whose definition is missing;
    "first_basename" is the file name of the path without its extension. *)
Definition base_name (p : path) : string :=
  let f := filename p in
  String.substring 0 (String.length f - String.length (extension p)) f.

(** A directory holding one FASTQ file of two records. *)
Definition fastq_dir : filesystem :=
  MkFs (λ _, ["data/reads.fastq"]) (λ _, 1000) (λ _, [400; 600]).

(** A directory holding a text file and a FASTA file of two records. *)
Definition mixed_dir : filesystem :=
  MkFs (λ _, ["data/s.txt"; "data/notes.md"; "data/g.fasta"])
       (λ _, 1000) (λ _, [400; 600]).

Definition subdoc0 : DocumentEntry := MkEntry "data/g.fasta" Fasta 400 0.
Definition subdoc1 : DocumentEntry := MkEntry "data/g.fasta" Fasta 600 1.

(** Two text files of one directory, the first one without a stem. *)
Definition hidden_txt : DocumentEntry := MkEntry "data/.txt" Text 10 0.
Definition b_txt : DocumentEntry := MkEntry "data/b.txt" Text 20 0.
Definition c_txt : DocumentEntry := MkEntry "data/c.txt" Text 30 0.

End DocList.

(* ===================================================================== *)
Module Msbf.
Import DocList.

(** [std::to_string] on an unsigned number. *)
Definition to_string (n : N) : string := NilZero.string_of_uint (N.to_uint n).

(** [a / b] on paths. *)
Definition path_append (a b : path) : path := a +:+ "/" +:+ b.

(** A file met by a directory iterator: its path, whether it is a regular
    file, and its size. *)
Record dirent := MkDirent {
  de_path : path;
  de_is_regular_file : bool;
  de_file_size : N
}.

(** A directory listing one level deep: each entry of the listed directory
    with, when the entry is itself a directory, the files it holds. *)
Abbreviation listing F := (list (path * option (list F))).

(** The entries of a listing that are directories, with their files. *)
Definition directories {F : Type} (l : listing F) : list (path * list F) :=
  omap (λ e, pair e.1 <$> e.2) l.

(** *** [create_folders] (lines 9-33) *)

Record folders_state := MkFolders {
  cf_batch : N;
  cf_i : N;
  cf_sub_out_dir : path;
  cf_tree : list (path * list dirent)
}.

(** [boost::filesystem::create_directories]. *)
Definition create_directories (d : path) (tree : list (path * list dirent))
    : list (path * list dirent) :=
  if existsb (λ g, String.eqb g.1 d) tree then tree else tree ++ [(d, [])].

(** [boost::filesystem::rename(p, d / p.filename())]. *)
Definition rename_into (d : path) (p : dirent) (tree : list (path * list dirent))
    : list (path * list dirent) :=
  (λ g, if String.eqb g.1 d
        then (g.1, g.2 ++ [MkDirent (path_append d (filename (de_path p)))
                                     (de_is_regular_file p) (de_file_size p)])
        else g) <$> tree.

(** The group directory number [g], counted from zero, below [out_dir],
    and a file as it is found there after [rename_into]. *)
Definition group_dir (out_dir : path) (g : nat) : path :=
  out_dir +:+ "/" +:+ to_string (N.of_nat (S g)).

Definition moved (d : path) (p : dirent) : dirent :=
  MkDirent (path_append d (filename (de_path p)))
           (de_is_regular_file p) (de_file_size p).

Section msbf.
(** [genome::file::sample_header::file_extension] and
    [genome::file::bloom_filter_header::file_extension]; the headers that
    define them are not part of the sources at hand. *)
Variable sample_extension : string.
Variable bloom_extension : string.

(** Body of the loop at lines 22-32. *)
Definition folders_step (out_dir : path) (batch_size : N)
    (st : folders_state) (p : dirent) : folders_state :=
  if String.eqb (extension (de_path p)) sample_extension then
    let st1 :=
      if cf_i st mod batch_size =? 0 then
        let d := out_dir +:+ "/" +:+ to_string (cf_batch st) in
        MkFolders (cf_batch st + 1) (cf_i st) d (create_directories d (cf_tree st))
      else st in
    MkFolders (cf_batch st1) (wrap64 (cf_i st1 + 1)) (cf_sub_out_dir st1)
              (rename_into (cf_sub_out_dir st1) p (cf_tree st1))
  else st.

(** [create_folders].  [in_dir] is the sequence of the recursive directory
    iterator over the input directory; the result is the tree below
    [out_dir] afterwards.  A [batch_size] of zero makes [i % batch_size]
    undefined. *)
Definition create_folders (in_dir : list dirent) (out_dir : path)
    (batch_size : N) : result (list (path * list dirent)) :=
  let paths := filter (λ p, de_is_regular_file p = true) in_dir in
  let paths := std_sort (λ p1 p2, de_file_size p1 <? de_file_size p2) paths in
  if (batch_size =? 0)
     && existsb (λ p, String.eqb (extension (de_path p)) sample_extension) paths
  then Fault "i % batch_size with batch_size == 0"
  else Ok (cf_tree (foldl (folders_step out_dir batch_size)
                          (MkFolders 1 0 "" []) paths)).

(** *** [calc_bloom_filter_size] (lines 35-47) *)

(** The two functions compute in IEEE-754 double precision with
    [std::log], [std::pow] and [std::ceil]; they are kept abstract.
    [double] is the type of doubles, [to_double] the conversion from
    [size_t], and [calc_bloom_filter_size n k p] is the value returned, or
    [Exit] when one of the two assertions fails. *)
Variable double : Type.
Variable to_double : N → double.
Variable calc_bloom_filter_size : N → double → double → result N.

(** *** [create_bloom_filters_from_samples] (lines 49-67) *)

(** One call of [bloom_filter::create_from_samples]. *)
Record samples_call := MkSamplesCall {
  cfs_in_dir : path;
  cfs_out_dir : path;
  cfs_bloom_filter_size : N;
  cfs_block_size : N;
  cfs_num_hashes : N
}.

(** The inner loop, lines 56-61. *)
Definition max_file_size (files : list dirent) : N :=
  foldl (λ m f, if String.eqb (extension (de_path f)) sample_extension
                then N.max m (de_file_size f) else m)
        0 files.

(** Body of the outer loop, lines 54-65, on the calls made so far. *)
Definition samples_step (out_dir : path) (batch_size num_hashes : N)
    (false_positive_probability : double)
    (acc : result (list samples_call)) (entry : path * option (list dirent))
    : result (list samples_call) :=
  match acc with
  | Ok calls =>
      match entry.2 with
      | Some files =>
          match calc_bloom_filter_size (max_file_size files / 8)
                  (to_double num_hashes) false_positive_probability with
          | Ok bloom_filter_size =>
              Ok (calls ++ [MkSamplesCall entry.1
                              (path_append out_dir (filename entry.1))
                              bloom_filter_size (batch_size / 8) num_hashes])
          | Exit msg => Exit msg
          | Fault what => Fault what
          end
      | None => Ok calls
      end
  | _ => acc
  end.

Definition create_bloom_filters_from_samples (in_dir : listing dirent)
    (out_dir : path) (batch_size num_hashes : N)
    (false_positive_probability : double) : result (list samples_call) :=
  if negb (batch_size mod 8 =? 0) then Exit "assert(batch_size % 8 == 0)"
  else foldl (samples_step out_dir batch_size num_hashes false_positive_probability)
             (Ok []) in_dir.

(** The test of line 58 on a file of a group directory. *)
Definition is_sample (f : dirent) : bool :=
  String.eqb (extension (de_path f)) sample_extension.

(** What the specification asks for one group directory: a single call
    of [create_from_samples] for the directory, with the filter size
    computed from an eighth of the size of its largest sample file. *)
Definition sized_by_largest (num_hashes : N) (p : double)
    (group : path * list dirent) (call : samples_call) : Prop :=
  cfs_in_dir call = group.1
  ∧ cfs_num_hashes call = num_hashes
  ∧ calc_bloom_filter_size (max_file_size group.2 / 8) (to_double num_hashes) p
    = Ok (cfs_bloom_filter_size call)
  ∧ (∀ f, f ∈ group.2 → is_sample f = true →
          de_file_size f ≤ max_file_size group.2)
  ∧ ((∃ f, f ∈ group.2 ∧ is_sample f = true
           ∧ de_file_size f = max_file_size group.2)
     ∨ max_file_size group.2 = 0).

(** *** Blocks of Bloom filters *)

(** A file of a level directory: its path, the two header fields the
    driver reads, and the documents whose filters it holds, in column
    order. *)
Record block_file := MkBlock {
  bf_path : path;
  bf_bloom_filter_size : N;
  bf_num_hashes : N;
  bf_columns : list string
}.

Definition is_block (f : block_file) : bool :=
  String.eqb (extension (bf_path f)) bloom_extension.

(** Consecutive runs of [size] elements, the last one possibly shorter. *)
Fixpoint runs_loop {A} (size : nat) (l : list A) (run : list A) : list (list A) :=
  match l with
  | [] => match run with [] => [] | _ => [run] end
  | x :: l' =>
      let run := run ++ [x] in
      if Nat.eqb (length run) size then run :: runs_loop size l' []
      else runs_loop size l' run
  end.

Definition runs {A} (size : nat) (l : list A) : list (list A) :=
  runs_loop size l [].

(** Modelled from the spec: [genome::bloom_filter::combine_bloom_filters],
    which the driver calls and whose definition is missing.  Section 4.6:
    "combine each B consecutive blocks column-wise into one level-(L+1)
    block", "document column order at every level is the concatenation of
    input column orders", "Repeats until one block remains".  The blocks
    of the input directory are taken in runs of [batch_size]; each run
    becomes one block of the output directory, named after the first
    block of the run; the result is [true] when one block is left. *)
Definition merge_run (out_dir : path) (bloom_filter_size num_hashes : N)
    (run : list block_file) : block_file :=
  MkBlock (path_append out_dir (filename (default "" (bf_path <$> head run))))
          bloom_filter_size num_hashes
          (concat (bf_columns <$> run)).

Definition bloom_filter_combine (files : list block_file) (out_dir : path)
    (bloom_filter_size num_hashes batch_size : N) : bool * list block_file :=
  let out := merge_run out_dir bloom_filter_size num_hashes
               <$> runs (N.to_nat batch_size) (filter (λ f, is_block f = true) files) in
  (Nat.eqb (length out) 1, out).

(** *** [combine_bloom_filters] (lines 69-96) *)

(** The inner loop, lines 76-85: the header of the first block found. *)
Definition first_header (files : list block_file) : N * N :=
  match filter (λ f, is_block f = true) files with
  | f :: _ => (bf_bloom_filter_size f, bf_num_hashes f)
  | [] => (0, 0)
  end.

(** Body of the outer loop, lines 73-93.  The state is [all_combined] and
    the output directory as written so far. *)
Definition combine_step (out_dir : path) (batch_size : N)
    (st : bool * listing block_file) (entry : path * option (list block_file))
    : bool * listing block_file :=
  match entry.2 with
  | Some files =>
      let '(bloom_filter_size, num_hashes) := first_header files in
      if negb (bloom_filter_size =? 0) then
        let sub := path_append out_dir (filename entry.1) in
        let '(all_combined, out) :=
          bloom_filter_combine files sub bloom_filter_size num_hashes batch_size in
        (all_combined, st.2 ++ [(sub, Some out)])
      else st
  | None => st
  end.

Definition combine_bloom_filters (in_dir : listing block_file) (out_dir : path)
    (batch_size : N) : bool * listing block_file :=
  foldl (combine_step out_dir batch_size) (false, []) in_dir.

(** *** The loop of [create_msbf_from_samples] (lines 105-107) *)

(** [level] is the listing of [bloom_dir + to_string(iteration)].  The
    loop has no bound in the source; [fuel] bounds the number of levels
    and [None] means that the bound was reached.  The result is the value
    of [iteration] at exit and the listing of the last directory
    written. *)
Fixpoint merge_loop (fuel : nat) (bloom_dir : string) (batch_size : N)
    (iteration : N) (level : listing block_file)
    : option (N * listing block_file) :=
  match fuel with
  | O => None
  | S fuel' =>
      let '(all_combined, next) :=
        combine_bloom_filters level
          (bloom_dir +:+ to_string (iteration + 1)) batch_size in
      if all_combined then Some (iteration, next)
      else merge_loop fuel' bloom_dir batch_size (iteration + 1) next
  end.

(** Number of blocks held by the group directories of a level. *)
Definition blocks_in (entry : path * option (list block_file)) : nat :=
  match entry.2 with
  | Some files => length (filter (λ f, is_block f = true) files)
  | None => 0
  end.

Definition block_counts (level : listing block_file) : list nat :=
  blocks_in <$> level.

(** A group directory the driver combines: a directory whose first block
    declares a filter size other than zero. *)
Definition is_active (entry : path * option (list block_file)) : bool :=
  match entry.2 with
  | Some files => negb ((first_header files).1 =? 0)
  | None => false
  end.

(** The answer and the output directory of the call made for a group
    directory. *)
Definition combine_group (out_dir : path) (batch_size : N)
    (entry : path * option (list block_file))
    : bool * (path * option (list block_file)) :=
  let files := default [] entry.2 in
  let sub := path_append out_dir (filename entry.1) in
  let r := bloom_filter_combine files sub (first_header files).1
             (first_header files).2 batch_size in
  (r.1, (sub, Some r.2)).

(** The number of blocks of the group directory visited last among those
    the driver combines; this group decides the answer of a level. *)
Definition deciding (level : listing block_file) : option nat :=
  blocks_in <$> list.last (filter (λ e, is_active e = true) level).

(** The sample files of an input directory in the order in which
    [create_folders] moves them: the regular files in ascending order of
    size, those with the sample extension. *)
Definition samples_in_order (in_dir : list dirent) : list dirent :=
  filter (λ p, is_sample p = true)
    (std_sort (λ p1 p2, de_file_size p1 <? de_file_size p2)
       (filter (λ p, de_is_regular_file p = true) in_dir)).

(** The files [samples] in group directories of [batch_size] files each,
    numbered from one. *)
Definition grouped (out_dir : path) (batch_size : N) (samples : list dirent)
    : list (path * list dirent) :=
  imap (λ g files, (group_dir out_dir g, moved (group_dir out_dir g) <$> files))
       (runs (N.to_nat batch_size) samples).
End msbf.

(** *** Sample inputs *)

Definition sample_block (dir : path) (n : nat) : block_file :=
  MkBlock (path_append dir ("b" +:+ to_string (N.of_nat n) +:+ ".blo")) 64 3
          ["doc" +:+ to_string (N.of_nat n)].

(** A first level with two group directories: nine blocks in the first,
    one block in the second. *)
Definition two_groups : listing block_file :=
  [("out/bloom1/1", Some (sample_block "out/bloom1/1" <$> seq 0 9));
   ("out/bloom1/2", Some [sample_block "out/bloom1/2" 9])].

(** A first level with a single group directory of nine blocks. *)
Definition one_group : listing block_file :=
  [("out/bloom1/1", Some (sample_block "out/bloom1/1" <$> seq 0 9))].

(** A stand-in for the size computation with ratio ten. *)
Definition ten_per_element (n : N) (k p : unit) : result N := Ok (n * 10).

(** Four files of an input directory, three of them samples. *)
Definition sample_files : list dirent :=
  [MkDirent "in/a.sam" true 2400; MkDirent "in/b.sam" true 800;
   MkDirent "in/c.txt" true 99999; MkDirent "in/d.sam" true 1600].

(** Two group directories of sample files. *)
Definition sample_groups : listing dirent :=
  [("out/samples/1", Some [MkDirent "out/samples/1/a.sam" true 800;
                            MkDirent "out/samples/1/b.sam" true 1600;
                            MkDirent "out/samples/1/readme" true 99999]);
   ("out/samples/x.sam", None);
   ("out/samples/2", Some [MkDirent "out/samples/2/c.sam" true 2400])].

End Msbf.

(* ===================================================================== *)
(** * Properties *)

Lemma wrap64_small n : n < 2 ^ 64 → wrap64 n = n.
Proof. intros H. unfold wrap64. by apply N.mod_small. Qed.

(** ** The asynchronous backend *)
Module AioFacts.
Import Aio.

Lemma total_rows_take_le (params : list parameter) (k : nat) :
  total_rows (take k params) ≤ total_rows params.
Proof.
  revert k. induction params as [|p params IH]; intros [|k]; simpl; try lia.
  specialize (IH k). lia.
Qed.

Lemma total_rows_take_S (params : list parameter) (k : nat) (p : parameter) :
  params !! k = Some p →
  total_rows (take (S k) params) = total_rows (take k params) + signature_size p.
Proof.
  revert k. induction params as [|q params IH]; intros [|k] Hk; simpl in *;
    try discriminate.
  - injection Hk as ->. lia.
  - rewrite (IH k Hk). lia.
Qed.

(** Invariant of the loop at lines 17-19 after [k] iterations. *)
Lemma offsets_loop_invariant (h : header) (curr_pos : N) (k : nat) :
  curr_pos + page_size h * total_rows (parameters h) < 2 ^ 64 →
  (k < num_sub_indices h)%nat →
  let offs := foldl (offsets_step h)
                (<[ 0%nat := curr_pos ]> (replicate (num_sub_indices h) 0))
                (seq 1 k) in
  length offs = num_sub_indices h
  ∧ ∀ i, (i ≤ k)%nat → offs !! i = Some (base h curr_pos i).
Proof.
  intros Hfit. induction k as [|k IH]; intros Hk; cbv zeta.
  - simpl. split.
    + by rewrite length_insert, length_replicate.
    + intros i Hi. assert (i = 0%nat) as -> by lia.
      rewrite list_lookup_insert_eq by (rewrite length_replicate; lia).
      unfold base. simpl. f_equal. lia.
  - cbv zeta in IH. destruct IH as [Hlen Hlook]; [lia|].
    rewrite seq_S, foldl_app. simpl.
    set (offs := foldl _ _ _) in *.
    unfold offsets_step. replace (S k - 1)%nat with k by lia.
    split; [by rewrite length_insert|].
    destruct (lookup_lt_is_Some_2 (parameters h) k) as [p Hp];
      [unfold num_sub_indices in Hk; lia|].
    assert (Hstep : wrap64 (offs !!! k + wrap64 (page_size h * signature_size (parameters h !!! k)))
                    = base h curr_pos (S k)).
    { rewrite (list_lookup_total_correct _ _ _ (Hlook k (le_n _))).
      rewrite (list_lookup_total_correct _ _ _ Hp).
      unfold base. rewrite (total_rows_take_S _ _ _ Hp).
      pose proof (total_rows_take_le (parameters h) (S k)) as Hle.
      rewrite (total_rows_take_S _ _ _ Hp) in Hle.
      rewrite (wrap64_small (page_size h * signature_size p)) by nia.
      rewrite wrap64_small by nia. lia. }
    intros i Hi. destruct (decide (i = S k)) as [->|Hne].
    + rewrite list_lookup_insert_eq by lia. by rewrite Hstep.
    + rewrite list_lookup_insert_ne by done. apply Hlook. lia.
Qed.

Lemma compute_offsets_spec (h : header) (curr_pos : N) :
  curr_pos + page_size h * total_rows (parameters h) < 2 ^ 64 →
  (0 < num_sub_indices h)%nat →
  length (compute_offsets h curr_pos) = num_sub_indices h
  ∧ ∀ i, (i < num_sub_indices h)%nat →
         compute_offsets h curr_pos !! i = Some (base h curr_pos i).
Proof.
  intros Hfit Hpos.
  destruct (offsets_loop_invariant h curr_pos (num_sub_indices h - 1) Hfit)
    as [Hlen Hlook]; [lia|].
  split; [exact Hlen|]. intros i Hi. apply Hlook. lia.
Qed.

Lemma construct_Ok os h curr_pos fd ret ctx raw a :
  construct os h curr_pos fd ret ctx raw = Ok a →
  m_header a = h ∧ m_offsets a = compute_offsets h curr_pos
  ∧ (0 < num_sub_indices h)%nat ∧ page_size h mod os = 0.
Proof.
  unfold construct. intros H.
  destruct (page_size h mod os =? 0) eqn:Hp; simpl in H; [|discriminate].
  destruct (num_sub_indices h =? 0)%nat eqn:Hs; [discriminate|].
  destruct (ret <? 0)%Z; [discriminate|].
  injection H as <-. simpl.
  apply N.eqb_eq in Hp. apply Nat.eqb_neq in Hs. repeat split; auto. lia.
Qed.



(** *** [read_from_disk] *)

Lemma setup_iteration_other a hashes rows (iocbs : list iocb) (i j k : nat) :
  i ≠ k → setup_iteration a hashes rows iocbs (i, j) !! k = iocbs !! k.
Proof. intros Hne. unfold setup_iteration. by rewrite list_lookup_alter_ne. Qed.

Lemma setup_iteration_length a hashes rows (iocbs : list iocb) ij :
  length (setup_iteration a hashes rows iocbs ij) = length iocbs.
Proof. destruct ij. unfold setup_iteration. by rewrite length_alter. Qed.

(** Whatever the order in which the iterations of the parallel loop nest
    run, a control block whose index is not the sub-index of any iteration
    keeps the contents it had before the call. *)
Lemma setup_in_order_untouched (order : list (nat * nat)) a hashes rows (k : nat) :
  Forall (λ ij, ij.1 ≠ k) order →
  setup_in_order order a hashes rows !! k = m_iocbs a !! k.
Proof.
  unfold setup_in_order. generalize (m_iocbs a) as iocbs.
  induction order as [|[i j] order IH]; intros iocbs Hall; simpl; [done|].
  inversion Hall as [|? ? Hne Hrest]; subst. simpl in Hne.
  rewrite IH by done. by apply setup_iteration_other.
Qed.

Lemma iteration_space_sub_index (S R : nat) ij :
  ij ∈ iteration_space S R → (ij.1 < S)%nat.
Proof.
  unfold iteration_space. intros H.
  apply list_elem_of_bind in H as (i & Hin & Hi).
  apply list_elem_of_fmap in Hin as (j & -> & _). simpl.
  apply elem_of_seq in Hi. lia.
Qed.

(** Only the first [S] control blocks are written by a probe, although
    [S * |R|] of them are submitted. *)
Lemma setup_touches_first_blocks_only a hashes rows (k : nat) :
  (num_sub_indices (m_header a) ≤ k)%nat →
  setup a hashes rows !! k = m_iocbs a !! k.
Proof.
  intros Hk. unfold setup. apply setup_in_order_untouched.
  apply Forall_forall. intros ij Hin. apply list_elem_of_In in Hin.
  apply iteration_space_sub_index in Hin. lia.
Qed.

(** C1.  A probe with the hash list [1; 2] on an index with one sub-index
    ([P = 4096], [m_0 = 4], [base_0 = 4096], opened by the constructor over
    zeroed control blocks) submits two requests, but not
    one per (sub-index, hash) pair: both iterations write control block 0,
    so that the first request is the one for the last hash and the second
    one is control block 1 as the previous use of the object left it.  The
    request for the hash [1], which should read the page at offset [8192]
    into the first region of [rows], is not submitted. *)
Theorem read_from_disk_reuses_control_block :
  construct 4096 small_header 4096 3 0 0 (replicate 4 (Iocb 0 0 0 0 0))
  = Ok small_index
  ∧ requests_of (read_from_disk 2 2 small_index [1; 2] small_rows)
    = [Iocb 3 IOCB_CMD_PREAD (small_rows + 4096) 4096 12288;
       Iocb 3 IOCB_CMD_PREAD 0 4096 0]
  ∧ page_requests small_index [1; 2] small_rows
    = [Iocb 3 IOCB_CMD_PREAD small_rows 4096 8192;
       Iocb 3 IOCB_CMD_PREAD (small_rows + 4096) 4096 12288]
  ∧ (Iocb 3 IOCB_CMD_PREAD small_rows 4096 8192
     ∉ requests_of (read_from_disk 2 2 small_index [1; 2] small_rows))
  ∧ ¬ (requests_of (read_from_disk 2 2 small_index [1; 2] small_rows)
       ≡ₚ page_requests small_index [1; 2] small_rows).
Proof.
  assert (Hsub : requests_of (read_from_disk 2 2 small_index [1; 2] small_rows)
                 = [Iocb 3 IOCB_CMD_PREAD (small_rows + 4096) 4096 12288;
                    Iocb 3 IOCB_CMD_PREAD 0 4096 0]) by (vm_compute; reflexivity).
  assert (Hexp : page_requests small_index [1; 2] small_rows
                 = [Iocb 3 IOCB_CMD_PREAD small_rows 4096 8192;
                    Iocb 3 IOCB_CMD_PREAD (small_rows + 4096) 4096 12288])
    by (vm_compute; reflexivity).
  assert (Hnot : Iocb 3 IOCB_CMD_PREAD small_rows 4096 8192
                 ∉ requests_of (read_from_disk 2 2 small_index [1; 2] small_rows)).
  { rewrite Hsub. intros Hin.
    apply elem_of_cons in Hin as [Heq|Hin]; [discriminate Heq|].
    apply elem_of_cons in Hin as [Heq|Hin]; [discriminate Heq|].
    by apply not_elem_of_nil in Hin. }
  split; [reflexivity|]. repeat split; try assumption.
  intros Hperm. apply Hnot. rewrite Hperm, Hexp. left.
Qed.

(** With a single hash the control blocks written are exactly those
    submitted: the probe of one row per sub-index is as specified. *)
Lemma read_from_disk_single_hash :
  requests_of (read_from_disk 1 1 small_index [6] small_rows)
  = page_requests small_index [6] small_rows.
Proof. vm_compute. reflexivity. Qed.

(** C2 fails: when [io_submit] takes one of two batched requests the probe
    does not return. *)
Lemma short_submit_not_survived :
  ¬ survives_short_submit 1 2 small_index [1; 2] small_rows.
Proof.
  unfold survives_short_submit. intros H.
  assert (Hnr : num_requests small_index [1; 2] = 2%Z) by (vm_compute; reflexivity).
  rewrite Hnr in H. specialize (H ltac:(lia)).
  vm_compute in H. discriminate H.
Qed.

(** C2, amended.  When [io_submit] does not take all the batched requests,
    be it fewer or an error, the backend does not recover: the probe ends
    the process with "io_submit error" after the one [io_submit] call; no
    read is made in its place and [io_getevents] is not reached. *)
Theorem short_submit_is_fatal (io_submit_ret io_getevents_ret : Z)
    (a : aio) (hashes : list N) (rows : N) :
  io_submit_ret ≠ num_requests a hashes →
  (read_from_disk io_submit_ret io_getevents_ret a hashes rows).2
  = Exit "io_submit error"
  ∧ (read_from_disk io_submit_ret io_getevents_ret a hashes rows).1.2
    = [IoSubmit (num_requests a hashes)
         (submitted a (setup a hashes rows) (num_requests a hashes))].
Proof.
  intros Hne. unfold read_from_disk.
  destruct (io_submit_ret =? num_requests a hashes)%Z eqn:Heq.
  - apply Z.eqb_eq in Heq. contradiction.
  - simpl. split; reflexivity.
Qed.

Lemma short_submit_is_fatal_witness :
  (read_from_disk 1 2 small_index [1; 2] small_rows).2 = Exit "io_submit error"
  ∧ (read_from_disk 1 2 small_index [1; 2] small_rows).1.2
    = [IoSubmit (num_requests small_index [1; 2])
         (submitted small_index (setup small_index [1; 2] small_rows)
            (num_requests small_index [1; 2]))].
Proof.
  apply (short_submit_is_fatal 1 2 small_index [1; 2] small_rows).
  vm_compute. discriminate.
Defined.

(** *** The control blocks after the loop nest *)

Lemma setup_iteration_written a hashes rows (iocbs : list iocb) (ij : nat * nat) :
  setup_iteration a hashes rows iocbs ij
  = alter (written a hashes rows ij) ij.1 iocbs.
Proof. by destruct ij. Qed.

Lemma foldl_bind {A B C} (f : A → C → A) (g : B → list C) (l : list B) (acc : A) :
  foldl f acc (l ≫= g) = foldl (λ acc x, foldl f acc (g x)) acc l.
Proof.
  revert acc. induction l as [|x l IH]; intros acc; [done|].
  rewrite bind_cons, foldl_app. simpl. apply IH.
Qed.

(** The iterations of one sub-index [i]: each overwrites what the one
    before stored, so the control block is left as the last one wrote it. *)
Lemma setup_inner_loop a hashes rows (iocbs : list iocb) (i R : nat) :
  foldl (setup_iteration a hashes rows) iocbs ((λ j, (i, j)) <$> seq 0 (S R))
  = alter (written a hashes rows (i, R)) i iocbs.
Proof.
  induction R as [|R IH].
  - reflexivity.
  - rewrite (seq_S (S R) 0), fmap_app, foldl_app, IH.
    cbn [fmap list_fmap foldl]. rewrite setup_iteration_written.
    cbn [fst Nat.add]. rewrite list_alter_alter_eq. by apply list_alter_ext.
Qed.

Lemma setup_outer_loop (w : nat → iocb → iocb) (iocbs : list iocb) (n k : nat) :
  foldl (λ l i, alter (w i) i l) iocbs (seq 0 n) !! k
  = if decide (k < n)%nat then w k <$> iocbs !! k else iocbs !! k.
Proof.
  induction n as [|n IH]; [done|].
  rewrite seq_S, foldl_app. simpl. rewrite list_lookup_alter.
  destruct (decide (n = k)) as [->|Hne].
  - rewrite IH. rewrite decide_False by lia. by rewrite decide_True by lia.
  - rewrite IH. destruct (decide (k < n)%nat).
    + by rewrite decide_True by lia.
    + by rewrite decide_False by lia.
Qed.

Lemma foldl_pointwise {A B} (f g : A → B → A) (l : list B) (acc : A) :
  (∀ a x, f a x = g a x) → foldl f acc l = foldl g acc l.
Proof.
  intros Hfg. revert acc. induction l as [|x l IH]; intros acc; simpl; [done|].
  by rewrite Hfg, IH.
Qed.

(** After the loop nest run over [R + 1] hashes, the control block of
    sub-index [k] is as the iteration of the last hash wrote it, and the
    control blocks beyond the sub-indices are as before. *)
Lemma setup_lookup a (hashes : list N) rows (R k : nat) :
  length hashes = S R →
  setup a hashes rows !! k
  = if decide (k < num_sub_indices (m_header a))%nat
    then written a hashes rows (k, R) <$> m_iocbs a !! k
    else m_iocbs a !! k.
Proof.
  intros HR. unfold setup, setup_in_order, iteration_space.
  rewrite HR, foldl_bind.
  rewrite (foldl_pointwise _ (λ l i, alter (written a hashes rows (i, R)) i l)).
  - apply (setup_outer_loop (λ i, written a hashes rows (i, R))).
  - intros l i. apply setup_inner_loop.
Qed.

Lemma setup_length a (hashes : list N) rows :
  length (setup a hashes rows) = length (m_iocbs a).
Proof.
  unfold setup, setup_in_order.
  generalize (iteration_space (num_sub_indices (m_header a)) (length hashes)).
  generalize (m_iocbs a).
  intros iocbs order. revert iocbs.
  induction order as [|ij order IH]; intros iocbs; simpl; [done|].
  by rewrite IH, setup_iteration_length.
Qed.

Lemma setup_initialised a (hashes : list N) rows :
  Forall (initialised a) (m_iocbs a) →
  Forall (initialised a) (setup a hashes rows).
Proof.
  unfold setup, setup_in_order.
  generalize (iteration_space (num_sub_indices (m_header a)) (length hashes)).
  generalize (m_iocbs a).
  intros iocbs order. revert iocbs.
  induction order as [|ij order IH]; intros iocbs Hall; simpl; [done|].
  apply IH. rewrite setup_iteration_written.
  apply Forall_alter; [done|]. intros c _ Hc. exact Hc.
Qed.

Lemma construct_well_formed os h curr_pos fd ret ctx raw a :
  construct os h curr_pos fd ret ctx raw = Ok a → well_formed a.
Proof.
  unfold construct. intros H.
  destruct (page_size h mod os =? 0); simpl in H; [|discriminate].
  destruct (num_sub_indices h =? 0)%nat; [discriminate|].
  destruct (ret <? 0)%Z; [discriminate|].
  injection H as <-. split; simpl.
  - apply Forall_fmap, list.Forall_forall. intros c _. by repeat split.
  - by rewrite length_fmap.
Qed.

Lemma construct_inv os h curr_pos fd ret ctx raw a :
  construct os h curr_pos fd ret ctx raw = Ok a →
  a = {| m_header := h; m_offsets := compute_offsets h curr_pos; m_fd := fd;
         m_ctx := ctx; m_iocbs := init_iocb fd h <$> raw;
         m_iocbpp := seq 0 (length raw) |}.
Proof.
  unfold construct. intros H.
  destruct (page_size h mod os =? 0); simpl in H; [|discriminate].
  destruct (num_sub_indices h =? 0)%nat; [discriminate|].
  destruct (ret <? 0)%Z; [discriminate|].
  by injection H as <-.
Qed.

Lemma total_rows_take_mono (params : list parameter) (s t : nat) :
  (s ≤ t)%nat → total_rows (take s params) ≤ total_rows (take t params).
Proof.
  intros Hst. replace (take s params) with (take s (take t params)).
  - apply total_rows_take_le.
  - rewrite take_take. f_equal. lia.
Qed.

Lemma bind_singleton_fmap {A B} (g : A → B) (l : list A) :
  l ≫= (λ x, [g x]) = g <$> l.
Proof. induction l as [|x l IH]; [done|]. rewrite bind_cons, IH. done. Qed.



Lemma base_step (h : header) (curr_pos : N) (i : nat) (p : parameter) :
  parameters h !! i = Some p →
  base h curr_pos (S i) = base h curr_pos i + signature_size p * page_size h
  ∧ base h curr_pos (S i) ≤ curr_pos + page_size h * total_rows (parameters h).
Proof.
  intros Hp. unfold base. rewrite (total_rows_take_S _ _ _ Hp).
  pose proof (total_rows_take_le (parameters h) (S i)) as Hle.
  rewrite (total_rows_take_S _ _ _ Hp) in Hle. split; [lia|nia].
Qed.

(** The file offset stored for sub-index [i] and the hash [hash]. *)
Lemma written_offset (h : header) (curr_pos hash : N) (i : nat) (p : parameter) :
  curr_pos + page_size h * total_rows (parameters h) < 2 ^ 64 →
  parameters h !! i = Some p → 0 < signature_size p →
  wrap64 (base h curr_pos i + wrap64 ((hash mod signature_size p) * page_size h))
  = base h curr_pos i + (hash mod signature_size p) * page_size h
  ∧ base h curr_pos i + (hash mod signature_size p) * page_size h + page_size h
    ≤ base h curr_pos i + signature_size p * page_size h.
Proof.
  intros Hfit Hp Hm.
  destruct (base_step h curr_pos i p Hp) as [Hstep Hle].
  assert (Hmod : hash mod signature_size p < signature_size p)
    by (apply N.mod_lt; lia).
  assert (Hin : (hash mod signature_size p) * page_size h + page_size h
                ≤ signature_size p * page_size h) by nia.
  split; [|lia].
  rewrite (wrap64_small ((hash mod signature_size p) * page_size h)) by lia.
  apply wrap64_small. lia.
Qed.



(** X3.  The probe of a single hash is as the layout asks: on an index
    opened by the constructor (page size positive, sub-indices inside the
    offset range, positive signature sizes, at least as many control blocks
    as sub-indices, the buffer inside the address range) the requests handed
    to [io_submit] are, in order, one per sub-index [i]: the page at
    [base_i + (hash mod m_i) * P] read into region [i] of [rows]. *)
Theorem single_hash_probe_as_laid_out (os : N) (h : header) (curr_pos : N)
    (fd ret : Z) (ctx : N) (raw : list iocb) (a : aio)
    (io_submit_ret io_getevents_ret : Z) (hash rows : N) :
  construct os h curr_pos fd ret ctx raw = Ok a →
  2 ≤ os → 0 < page_size h →
  curr_pos + page_size h * total_rows (parameters h) < 2 ^ 64 →
  Forall (λ p, 0 < signature_size p) (parameters h) →
  rows + N.of_nat (num_sub_indices h) * page_size h < 2 ^ 64 →
  (num_sub_indices h ≤ length raw)%nat →
  requests_of (read_from_disk io_submit_ret io_getevents_ret a [hash] rows)
  = page_requests a [hash] rows.
Proof.
  intros Hc Hos HP Hfit Hpos Hbuf Hcap.
  destruct (construct_Ok _ _ _ _ _ _ _ _ Hc) as (_ & _ & HS & Hmod).
  pose proof (construct_inv _ _ _ _ _ _ _ _ Hc) as ->.
  destruct (compute_offsets_spec h curr_pos Hfit HS) as [_ Hoffs].
  assert (HP2 : 2 ≤ page_size h).
  { apply N.Lcm0.mod_divide in Hmod. apply N.divide_pos_le in Hmod; lia. }
  assert (HS63 : N.of_nat (num_sub_indices h) < 2 ^ 63) by nia.
  assert (Hnr : num_requests
                  {| m_header := h; m_offsets := compute_offsets h curr_pos;
                     m_fd := fd; m_ctx := ctx; m_iocbs := init_iocb fd h <$> raw;
                     m_iocbpp := seq 0 (length raw) |} [hash]
                = Z.of_nat (num_sub_indices h)).
  { unfold num_requests. simpl. rewrite N.mul_1_r.
    rewrite wrap64_small by lia.
    destruct (N.ltb_spec (N.of_nat (num_sub_indices h)) (2 ^ 63)); lia. }
  assert (Hreq : ∀ run : aio * list syscall * result unit,
            run = read_from_disk io_submit_ret io_getevents_ret
                    {| m_header := h; m_offsets := compute_offsets h curr_pos;
                       m_fd := fd; m_ctx := ctx; m_iocbs := init_iocb fd h <$> raw;
                       m_iocbpp := seq 0 (length raw) |} [hash] rows →
            requests_of run
            = submitted
                {| m_header := h; m_offsets := compute_offsets h curr_pos;
                   m_fd := fd; m_ctx := ctx; m_iocbs := init_iocb fd h <$> raw;
                   m_iocbpp := seq 0 (length raw) |}
                (setup {| m_header := h; m_offsets := compute_offsets h curr_pos;
                          m_fd := fd; m_ctx := ctx;
                          m_iocbs := init_iocb fd h <$> raw;
                          m_iocbpp := seq 0 (length raw) |} [hash] rows)
                (Z.of_nat (num_sub_indices h))).
  { intros run ->. unfold read_from_disk, requests_of. rewrite Hnr.
    destruct (negb _); [done|]. by destruct (_ <? _)%Z. }
  rewrite (Hreq _ eq_refl). clear Hreq.
  unfold submitted, page_requests, iteration_space. simpl m_iocbpp. simpl m_header.
  rewrite Nat2Z.id, take_seq, Nat.min_l by lia.
  change (length [hash]) with 1%nat.
  replace (seq 0 (num_sub_indices h) ≫= λ i, (λ j, (i, j)) <$> seq 0 1)
    with ((λ i, (i, 0%nat)) <$> seq 0 (num_sub_indices h))
    by (symmetry; apply (bind_singleton_fmap (λ i, (i, 0%nat)))).
  rewrite <- list_fmap_compose.
  apply list_fmap_ext. intros k i Hi.
  apply lookup_seq in Hi as [-> Hk]. simpl in Hk |- *.
  destruct (lookup_lt_is_Some_2 raw k) as [c0 Hc0]; [lia|].
  destruct (lookup_lt_is_Some_2 (parameters h) k) as [p Hp]; [done|].
  assert (Hm : 0 < signature_size p).
  { by apply (proj1 (Forall_lookup _ _) Hpos k p). }
  apply list_lookup_total_correct.
  rewrite (setup_lookup _ _ _ 0 k) by done. simpl.
  rewrite decide_True by done. rewrite list_lookup_fmap, Hc0. simpl.
  unfold written, page_request, init_iocb. simpl.
  rewrite (list_lookup_total_correct _ _ _ (Hoffs k Hk)).
  rewrite (list_lookup_total_correct _ _ _ Hp).
  destruct (written_offset h curr_pos hash k p Hfit Hp Hm) as [-> _].
  change (N.of_nat 0 * N.of_nat (num_sub_indices h)) with 0.
  rewrite (wrap64_small 0) by lia. rewrite N.add_0_r.
  rewrite (wrap64_small (N.of_nat k)) by nia.
  rewrite (wrap64_small (N.of_nat k * page_size h)) by nia.
  rewrite (wrap64_small (rows + N.of_nat k * page_size h)) by nia.
  reflexivity.
Qed.

Lemma single_hash_probe_as_laid_out_witness :
  requests_of (read_from_disk 4 4 four_index [9] 65536)
  = page_requests four_index [9] 65536.
Proof.
  apply (single_hash_probe_as_laid_out 4096 four_sub_indices 8192 5 0 0
           (replicate 16 (Iocb 0 0 7 0 9)) four_index 4 4 9 65536).
  - reflexivity.
  - vm_compute. discriminate.
  - vm_compute. reflexivity.
  - vm_compute. reflexivity.
  - repeat constructor.
  - vm_compute. reflexivity.
  - vm_compute. lia.
Defined.

(** X4.  The sub-indices follow one another in the file without overlap:
    on an index opened by the constructor whose sub-indices fit in the
    offset range, the region of sub-index [s] ends at or before the base
    offset of every later sub-index [t]. *)
Theorem sub_index_regions_do_not_overlap (os : N) (h : header) (curr_pos : N)
    (fd ret : Z) (ctx : N) (raw : list iocb) (a : aio)
    (s t : nat) (b b' : N) (p : parameter) :
  construct os h curr_pos fd ret ctx raw = Ok a →
  curr_pos + page_size h * total_rows (parameters h) < 2 ^ 64 →
  (s < t)%nat →
  m_offsets a !! s = Some b → m_offsets a !! t = Some b' →
  parameters h !! s = Some p →
  curr_pos ≤ b ∧ b + signature_size p * page_size h ≤ b'.
Proof.
  intros Hc Hfit Hst Hb Hb' Hp.
  destruct (construct_Ok _ _ _ _ _ _ _ _ Hc) as (_ & Hoffs & HS & _).
  destruct (compute_offsets_spec h curr_pos Hfit HS) as [Hlen Hlook].
  rewrite Hoffs in Hb, Hb'.
  assert (t < num_sub_indices h)%nat
    by (rewrite <- Hlen; by eapply lookup_lt_Some).
  rewrite Hlook in Hb by lia. rewrite Hlook in Hb' by lia.
  injection Hb as <-. injection Hb' as <-.
  destruct (base_step h curr_pos s p Hp) as [Hstep _].
  rewrite <- Hstep. unfold base.
  pose proof (total_rows_take_mono (parameters h) (S s) t ltac:(lia)). nia.
Qed.

Lemma sub_index_regions_do_not_overlap_witness :
  8192 ≤ 24576 ∧ 24576 + signature_size (MkParameter 2 1) * page_size four_sub_indices
                 ≤ 65536.
Proof.
  apply (sub_index_regions_do_not_overlap 4096 four_sub_indices 8192 5 0 0
           (replicate 16 (Iocb 0 0 7 0 9)) four_index 1 3 24576 65536
           (MkParameter 2 1)).
  - reflexivity.
  - vm_compute. reflexivity.
  - lia.
  - reflexivity.
  - reflexivity.
  - reflexivity.
Defined.

End AioFacts.

(** ** Document lists *)
Module DocListFacts.
Import DocList.

(** *** The order on paths *)

Lemma path_ltb_lt (p q : path) : path_ltb p q = true ↔ String_as_OT.lt p q.
Proof.
  unfold path_ltb, String.ltb. rewrite <- String_as_OT.cmp_lt.
  unfold String_as_OT.cmp. destruct (String.compare p q); split; congruence.
Qed.

Lemma path_ltb_irrefl (p : path) : path_ltb p p = false.
Proof.
  unfold path_ltb, String.ltb.
  assert (String.compare p p = Eq) as -> by (by apply String_as_OT.cmp_eq).
  reflexivity.
Qed.

Lemma path_ltb_asym (p q : path) : path_ltb p q = true → path_ltb q p = false.
Proof.
  unfold path_ltb, String.ltb. rewrite (String.compare_antisym q p).
  destruct (String.compare p q); simpl; congruence.
Qed.

Lemma path_ltb_trans (p q r : path) :
  path_ltb p q = true → path_ltb q r = true → path_ltb p r = true.
Proof.
  rewrite !path_ltb_lt. apply String_as_OT.lt_trans.
Qed.

(** Neither path before the other: the paths are the same. *)
Lemma path_ltb_equiv (p q : path) :
  path_ltb p q = false ∧ path_ltb q p = false ↔ p = q.
Proof.
  split.
  - unfold path_ltb, String.ltb. rewrite (String.compare_antisym q p).
    destruct (String.compare p q) eqn:Hc; simpl; intros [H1 H2];
      try discriminate.
    by apply String.compare_eq_iff.
  - intros ->. split; apply path_ltb_irrefl.
Qed.

Lemma path_ltb_total (p q : path) :
  path_ltb p q = true ∨ p = q ∨ path_ltb q p = true.
Proof.
  destruct (path_ltb p q) eqn:H1; [by left|].
  destruct (path_ltb q p) eqn:H2; [by right; right|].
  right; left. by apply path_ltb_equiv.
Qed.

(** "Not after" is transitive. *)
Lemma path_leb_trans (p q r : path) :
  path_ltb q p = false → path_ltb r q = false → path_ltb r p = false.
Proof.
  intros Hpq Hqr. destruct (path_ltb r p) eqn:Hrp; [|reflexivity].
  destruct (path_ltb_total q r) as [H|[->|H]].
  - rewrite (path_ltb_trans _ _ _ H Hrp) in Hpq. discriminate.
  - congruence.
  - congruence.
Qed.

(** *** [std::sort] *)

Section std_sort_facts.
Context {A : Type} (less : A → A → bool).

Hypothesis less_asym : ∀ x y, less x y = true → less y x = false.
Hypothesis not_after_trans :
  ∀ x y z, not_after less x y → not_after less y z → not_after less x z.

Lemma linear_insert_perm (x : A) (l : list A) : linear_insert less x l ≡ₚ x :: l.
Proof.
  induction l as [|y l IH]; simpl; [done|].
  destruct (less x y); [done|]. rewrite IH. apply Permutation_swap.
Qed.

Lemma std_sort_perm (l : list A) : std_sort less l ≡ₚ l.
Proof.
  unfold std_sort.
  assert (H : ∀ acc, foldl (λ acc x, linear_insert less x acc) acc l ≡ₚ acc ++ l).
  { induction l as [|x l IH]; intros acc; simpl.
    - by rewrite app_nil_r.
    - rewrite IH, linear_insert_perm. simpl. apply Permutation_middle. }
  by rewrite H.
Qed.

Lemma linear_insert_sorted (x : A) (l : list A) :
  StronglySorted (not_after less) l → StronglySorted (not_after less) (linear_insert less x l).
Proof.
  induction l as [|y l IH]; intros Hs; simpl.
  - repeat constructor.
  - inversion Hs as [|? ? Hl Hy]; subst.
    destruct (less x y) eqn:Hxy.
    + constructor; [exact Hs|]. constructor.
      * unfold not_after. by apply less_asym.
      * eapply List.Forall_impl; [|exact Hy]. intros z Hz. simpl in Hz.
        eapply not_after_trans; [|exact Hz]. unfold not_after. by apply less_asym.
    + constructor; [by apply IH|].
      rewrite (linear_insert_perm x l). by constructor.
Qed.

Lemma std_sort_sorted (l : list A) : StronglySorted (not_after less) (std_sort less l).
Proof.
  unfold std_sort.
  assert (H : ∀ acc, StronglySorted (not_after less) acc →
              StronglySorted (not_after less)
                (foldl (λ acc x, linear_insert less x acc) acc l)).
  { induction l as [|x l IH]; intros acc Hacc; simpl; [done|].
    apply IH. by apply linear_insert_sorted. }
  apply H. constructor.
Qed.
End std_sort_facts.

Lemma StronglySorted_lookup_lt {A} (R : A → A → Prop) (l : list A) (i j : nat) (a b : A) :
  StronglySorted R l → (i < j)%nat → l !! i = Some a → l !! j = Some b → R a b.
Proof.
  intros Hs. revert i j. induction Hs as [|x l Hs IH Hx]; intros i j Hij Hi Hj.
  - by rewrite lookup_nil in Hi.
  - destruct j as [|j]; [lia|]. simpl in Hj. destruct i as [|i]; simpl in Hi.
    + injection Hi as <-. rewrite List.Forall_forall in Hx. apply Hx.
      apply list_elem_of_In. by eapply list_elem_of_lookup_2.
    + eapply (IH i j); [lia|done|done].
Qed.

Lemma lt_asym (a b : DocumentEntry) : lt a b = true → lt b a = false.
Proof. unfold lt. apply path_ltb_asym. Qed.

Lemma std_sort_lt_sorted_by_path (l : list DocumentEntry) :
  sorted_by_path (std_sort lt l).
Proof.
  intros i j a b Hij Ha Hb.
  apply (StronglySorted_lookup_lt (not_after lt) (std_sort lt l) i j a b);
    [|done|done|done].
  apply std_sort_sorted.
  - apply lt_asym.
  - intros x y z. unfold not_after, lt. apply path_leb_trans.
Qed.

(** *** [process_batches] *)

Section process_batches_facts.
Variable base_name : path → string.

(** The batches handed to [func], put end to end, are the entries the
    loop still had to visit after the ones it was holding. *)
Lemma batches_loop_concat (batch_size : N) (rest : list DocumentEntry)
    (first_filename last_filename : string) (j : N) (batch : list DocumentEntry) :
  concat (inv_batch <$> batches_loop base_name batch_size rest
                          first_filename last_filename j batch)
  = match rest with [] => [] | _ => batch ++ rest end.
Proof.
  revert first_filename last_filename j batch.
  induction rest as [|e rest IH]; intros first_filename last_filename j batch;
    simpl; [done|].
  destruct (_ || _) eqn:Hflush; simpl.
  - rewrite IH. destruct rest; simpl.
    + by rewrite app_nil_r.
    + by rewrite <- app_assoc.
  - rewrite IH. destruct rest.
    + rewrite length_app in Hflush. simpl in Hflush.
      replace (length batch + 1)%nat with (S (length batch)) in Hflush by lia.
      simpl in Hflush. by rewrite orb_true_r in Hflush.
    + by rewrite <- app_assoc.
Qed.

Lemma process_batches_concat (batch_size : N) (list_ : list DocumentEntry) :
  concat (inv_batch <$> process_batches base_name batch_size list_) = list_.
Proof.
  unfold process_batches. rewrite batches_loop_concat. by destruct list_.
Qed.

(** No batch is empty and none is longer than [batch_size]. *)
Lemma batches_loop_sizes (batch_size : N) (rest : list DocumentEntry)
    (first_filename last_filename : string) (j : N) (batch : list DocumentEntry) :
  N.of_nat (length batch) < batch_size →
  Forall (λ i, inv_batch i ≠ [] ∧ N.of_nat (length (inv_batch i)) ≤ batch_size)
         (batches_loop base_name batch_size rest first_filename last_filename j batch).
Proof.
  revert first_filename last_filename j batch.
  induction rest as [|e rest IH]; intros first_filename last_filename j batch Hlt;
    simpl; [constructor|].
  assert (Hlen : length (batch ++ [e]) = S (length batch))
    by (rewrite length_app; simpl; lia).
  destruct (_ || _) eqn:Hflush.
  - constructor; simpl.
    + split; [by destruct batch|]. rewrite Hlen. lia.
    + apply IH. simpl. lia.
  - apply IH. apply orb_false_iff in Hflush as [Hne _].
    apply N.eqb_neq in Hne. rewrite Hlen in *. lia.
Qed.

Lemma run_name_snoc (batch : list DocumentEntry) (e : DocumentEntry) :
  run_name base_name (batch ++ [e])
  = out_file_name
      (base_name (path_ (match batch with [] => e | f :: _ => f end)))
      (base_name (path_ e)).
Proof.
  unfold run_name. destruct batch as [|f batch]; simpl; [done|].
  assert (list.last (f :: batch ++ [e]) = Some e) as ->
    by apply (last_snoc e (f :: batch)).
  reflexivity.
Qed.

(** When no entry has an empty base name, every batch is named after its
    first and its last entry. *)
Lemma batches_loop_names (batch_size : N) (rest : list DocumentEntry)
    (first_filename last_filename : string) (j : N) (batch : list DocumentEntry) :
  Forall (λ e, base_name (path_ e) ≠ "") rest →
  match batch with
  | [] => first_filename = ""
  | f :: _ => first_filename = base_name (path_ f) ∧ first_filename ≠ ""
  end →
  Forall (λ i, inv_out_file i = run_name base_name (inv_batch i))
         (batches_loop base_name batch_size rest first_filename last_filename j batch).
Proof.
  revert first_filename last_filename j batch.
  induction rest as [|e rest IH];
    intros first_filename last_filename j batch Hnames Hfirst;
    simpl; [constructor|].
  inversion Hnames as [|? ? He Hrest]; subst.
  assert (Hf : (if String.eqb first_filename "" then base_name (path_ e)
                else first_filename)
               = base_name (path_ (match batch with [] => e | f :: _ => f end))).
  { destruct batch as [|f batch].
    - rewrite Hfirst. reflexivity.
    - destruct Hfirst as [Heq Hne].
      apply String.eqb_neq in Hne. rewrite Hne. exact Heq. }
  destruct (_ || _) eqn:Hflush.
  - constructor; simpl.
    + rewrite run_name_snoc. by rewrite Hf.
    + by apply IH.
  - apply IH; [done|]. rewrite Hf. destruct batch as [|f batch]; simpl.
    + split; [reflexivity|]. exact He.
    + destruct Hfirst as [Heq Hne]. split; [reflexivity|]. by rewrite <- Heq.
Qed.

(** The part of C6 that holds for every list: consecutive non-empty runs
    of at most [batch_size] entries whose concatenation is the list; and
    the batch names are as specified when no base name is empty. *)
Lemma process_batches_runs (batch_size : N) (list_ : list DocumentEntry) :
  0 < batch_size →
  concat (inv_batch <$> process_batches base_name batch_size list_) = list_
  ∧ Forall (λ i, inv_batch i ≠ [] ∧ N.of_nat (length (inv_batch i)) ≤ batch_size)
           (process_batches base_name batch_size list_)
  ∧ (Forall (λ e, base_name (path_ e) ≠ "") list_ →
     Forall (λ i, inv_out_file i = run_name base_name (inv_batch i))
            (process_batches base_name batch_size list_)).
Proof.
  intros Hpos. split; [apply process_batches_concat|]. split.
  - apply batches_loop_sizes. simpl. lia.
  - intros Hnames. by apply batches_loop_names.
Qed.
End process_batches_facts.

Lemma process_each_id (list_ : list DocumentEntry) : process_each list_ = list_.
Proof.
  unfold process_each.
  assert (H : ∀ calls, foldl (λ calls e, calls ++ [e]) calls list_ = calls ++ list_).
  { induction list_ as [|e l IH]; intros calls; simpl.
    - by rewrite app_nil_r.
    - rewrite IH. by rewrite <- app_assoc. }
  apply H.
Qed.

(** *** Scans, the order of entries and batches *)

Lemma add_fastq_ignored (fs : filesystem) (p : path) (list_ : list DocumentEntry) :
  extension p = ".fastq" → add fs p list_ = list_.
Proof. intros Hext. unfold add. rewrite Hext. reflexivity. Qed.

Lemma accept_fastq (p : path) :
  extension p = ".fastq" → accept p Any = true ∧ accept p Fastq = true.
Proof. intros Hext. unfold accept. rewrite Hext. split; reflexivity. Qed.

(** A FASTA file, the sibling case, is exploded into one entry per record. *)
Lemma fasta_file_listed :
  from_directory mixed_dir "data" Any
  = [MkEntry "data/g.fasta" Fasta 400 0; MkEntry "data/g.fasta" Fasta 600 1;
     MkEntry "data/s.txt" Text 1000 0].
Proof. vm_compute. reflexivity. Qed.

(** C4.  A directory that holds the single file [data/reads.fastq], a FASTQ
    file of two records, is scanned with the filter [Any] or [Fastq]: the
    file is accepted by [accept], but [add] has no case for its extension
    and appends nothing, so the list stays empty and the file is not listed
    as a Fastq document. *)
Theorem fastq_file_not_listed :
  extension "data/reads.fastq" = ".fastq"
  ∧ accept "data/reads.fastq" Any = true
  ∧ accept "data/reads.fastq" Fastq = true
  ∧ from_directory fastq_dir "data" Any = []
  ∧ from_directory fastq_dir "data" Fastq = []
  ∧ ¬ listed_as_fastq "data/reads.fastq" (from_directory fastq_dir "data" Any)
  ∧ ¬ listed_as_fastq "data/reads.fastq" (from_directory fastq_dir "data" Fastq).
Proof.
  assert (HA : from_directory fastq_dir "data" Any = []) by (vm_compute; reflexivity).
  assert (HF : from_directory fastq_dir "data" Fastq = []) by (vm_compute; reflexivity).
  repeat split; try (vm_compute; reflexivity).
  - rewrite HA. intros (e & Hin & _). by apply not_elem_of_nil in Hin.
  - rewrite HF. intros (e & Hin & _). by apply not_elem_of_nil in Hin.
Qed.



(** C6.  The list of the three text files [data/.txt], [data/b.txt] and
    [data/c.txt] is processed in batches of two.  The runs are as
    specified, but the first batch, whose first entry has the empty base
    name, is named after its second entry: ["[b-b]"] instead of ["[-b]"]. *)
Theorem batch_name_misses_empty_base_name :
  from_list [b_txt; c_txt; hidden_txt] = [hidden_txt; b_txt; c_txt]
  ∧ base_name (path_ hidden_txt) = ""
  ∧ process_batches base_name 2 (from_list [b_txt; c_txt; hidden_txt])
    = [MkInvocation 1 [hidden_txt; b_txt] "[b-b]";
       MkInvocation 2 [c_txt] "[c-c]"]
  ∧ run_name base_name [hidden_txt; b_txt] = "[-b]".
Proof. repeat split; vm_compute; reflexivity. Qed.


(** [sort_by_size] gives up the path order. *)
Lemma sort_by_size_not_by_path :
  ¬ sorted_by_path (sort_by_size (from_list [c_txt; b_txt; MkEntry "data/a.txt" Text 99 0])).
Proof.
  intros H.
  specialize (H 0%nat 2%nat b_txt (MkEntry "data/a.txt" Text 99 0)
                ltac:(lia) eq_refl eq_refl).
  vm_compute in H. discriminate H.
Qed.

(** *** Filters and scans *)

Lemma accept_specific (p : path) (f : FileType) :
  f ≠ Any → accept p f = true →
  extension p = match f with
                | Any | Text => ".txt"
                | Cortex => ".ctx"
                | KMerBuffer => ".cobs_doc"
                | Fasta => ".fasta"
                | Fastq => ".fastq"
                end.
Proof. intros Hf H. destruct f; try done; by apply String.eqb_eq in H. Qed.

Lemma accept_exclusive (p : path) (f g : FileType) :
  f ≠ Any → g ≠ Any → accept p f = true → accept p g = true → f = g.
Proof.
  intros Hf Hg Haf Hag.
  pose proof (accept_specific p f Hf Haf) as Hef.
  pose proof (accept_specific p g Hg Hag) as Heg.
  rewrite Hef in Heg. destruct f, g; try done; discriminate Heg.
Qed.

(** X5.  The filter [Any] accepts exactly the paths that one of the five
    specific filters accepts, and no path is accepted by two different
    specific filters. *)
Theorem accept_filters_partition (p : path) :
  (accept p Any = true ↔ ∃ f, f ≠ Any ∧ accept p f = true)
  ∧ (∀ f g, f ≠ Any → g ≠ Any → accept p f = true → accept p g = true → f = g).
Proof.
  split; [|apply accept_exclusive]. split.
  - unfold accept at 1. intros H.
    repeat (apply orb_true_iff in H as [H|H]).
    + by exists Text.
    + by exists Cortex.
    + by exists KMerBuffer.
    + by exists Fasta.
    + by exists Fastq.
  - intros (f & Hf & H). pose proof (accept_specific p f Hf H) as Hext.
    unfold accept. rewrite Hext. by destruct f.
Qed.

(** What is known of an entry found by a scan of the paths [paths] with the
    filter [filter]. *)
Lemma add_entries (fs : filesystem) (p : path) (list_ : list DocumentEntry)
    (e : DocumentEntry) :
  e ∈ add fs p list_ →
  e ∈ list_
  ∨ (path_ e = p ∧ type_ e ≠ Any ∧ type_ e ≠ Fastq
     ∧ accept p (type_ e) = true
     ∧ (type_ e ≠ Fasta → size_ e = file_size fs p ∧ subdoc_index_ e = 0)
     ∧ (type_ e = Fasta →
        fasta_sizes fs p !! N.to_nat (subdoc_index_ e) = Some (size_ e))).
Proof.
  unfold add. intros H.
  destruct (String.eqb (extension p) ".txt") eqn:Htxt;
    [|destruct (String.eqb (extension p) ".ctx") eqn:Hctx;
      [|destruct (String.eqb (extension p) ".cobs_doc") eqn:Hdoc;
        [|destruct (String.eqb (extension p) ".fasta") eqn:Hfa]]].
  - apply elem_of_app in H as [H|H]; [by left|right].
    apply list_elem_of_singleton in H as ->. simpl. by repeat split.
  - apply elem_of_app in H as [H|H]; [by left|right].
    apply list_elem_of_singleton in H as ->. simpl. by repeat split.
  - apply elem_of_app in H as [H|H]; [by left|right].
    apply list_elem_of_singleton in H as ->. simpl. by repeat split.
  - apply elem_of_app in H as [H|H]; [by left|right].
    apply elem_of_lookup_imap in H as (i & sz & -> & Hsz). simpl.
    repeat split; try done. intros _. by rewrite Nat2N.id.
  - by left.
Qed.

Lemma scan_entries (fs : filesystem) (filter : FileType) (paths : list path)
    (acc : list DocumentEntry) (e : DocumentEntry) :
  e ∈ foldl (scan_step fs filter) acc paths →
  e ∈ acc
  ∨ (path_ e ∈ paths ∧ accept (path_ e) filter = true
     ∧ type_ e ≠ Any ∧ type_ e ≠ Fastq
     ∧ accept (path_ e) (type_ e) = true
     ∧ (type_ e ≠ Fasta →
        size_ e = file_size fs (path_ e) ∧ subdoc_index_ e = 0)
     ∧ (type_ e = Fasta →
        fasta_sizes fs (path_ e) !! N.to_nat (subdoc_index_ e) = Some (size_ e))).
Proof.
  revert acc. induction paths as [|p paths IH]; intros acc H; simpl in H.
  - by left.
  - apply IH in H as [H|H].
    + unfold scan_step in H. destruct (accept p filter) eqn:Hacc; [|by left].
      apply add_entries in H as [H|(Hp & H)]; [by left|right].
      rewrite Hp. split; [left|]. split; [done|]. exact H.
    + right. destruct H as (Hin & H). split; [by right|exact H].
Qed.

(** X6.  Every entry of a list built by a directory scan comes from a path
    of the directory that the filter accepts; its type is one of Text,
    Cortex, KMerBuffer and Fasta, the one that goes with the extension of
    its path, and it is the filter itself unless the filter is [Any]; an
    entry that is not Fasta carries the size of its file and the
    sub-document index 0, and a Fasta entry carries the size of the record
    its sub-document index names. *)
Theorem scanned_entries_sound (fs : filesystem) (dir : path)
    (filter : FileType) (e : DocumentEntry) :
  e ∈ from_directory fs dir filter →
  path_ e ∈ dir_entries fs dir
  ∧ accept (path_ e) filter = true
  ∧ type_ e ≠ Any ∧ type_ e ≠ Fastq
  ∧ accept (path_ e) (type_ e) = true
  ∧ (filter ≠ Any → type_ e = filter)
  ∧ (type_ e ≠ Fasta → size_ e = file_size fs (path_ e) ∧ subdoc_index_ e = 0)
  ∧ (type_ e = Fasta →
     fasta_sizes fs (path_ e) !! N.to_nat (subdoc_index_ e) = Some (size_ e)).
Proof.
  unfold from_directory, scan. rewrite (std_sort_perm lt). intros H.
  apply scan_entries in H as [H|(Hin & Hacc & Hany & Hfq & Hty & Hsz & Hfa)];
    [by apply not_elem_of_nil in H|].
  repeat split; try done.
  - intros Hf. by apply (accept_exclusive (path_ e)).
  - by apply Hsz.
  - by apply Hsz.
Qed.

Lemma scanned_entries_sound_witness :
  path_ subdoc1 ∈ dir_entries mixed_dir "data"
  ∧ accept (path_ subdoc1) Fasta = true
  ∧ type_ subdoc1 ≠ Any ∧ type_ subdoc1 ≠ Fastq
  ∧ accept (path_ subdoc1) (type_ subdoc1) = true
  ∧ (Fasta ≠ Any → type_ subdoc1 = Fasta)
  ∧ (type_ subdoc1 ≠ Fasta →
     size_ subdoc1 = file_size mixed_dir (path_ subdoc1)
     ∧ subdoc_index_ subdoc1 = 0)
  ∧ (type_ subdoc1 = Fasta →
     fasta_sizes mixed_dir (path_ subdoc1) !! N.to_nat (subdoc_index_ subdoc1)
     = Some (size_ subdoc1)).
Proof.
  apply (scanned_entries_sound mixed_dir "data" Fasta subdoc1).
  vm_compute. right. left.
Defined.

Lemma add_keeps (fs : filesystem) (p : path) (list_ : list DocumentEntry)
    (e : DocumentEntry) :
  e ∈ list_ → e ∈ add fs p list_.
Proof.
  intros H. unfold add.
  repeat (destruct (String.eqb _ _); [apply elem_of_app; by left|]). done.
Qed.

Lemma scan_keeps (fs : filesystem) (filter : FileType) (paths : list path)
    (acc : list DocumentEntry) (e : DocumentEntry) :
  e ∈ acc → e ∈ foldl (scan_step fs filter) acc paths.
Proof.
  revert acc. induction paths as [|p paths IH]; intros acc H; simpl; [done|].
  apply IH. unfold scan_step. destruct (accept p filter); [|done].
  by apply add_keeps.
Qed.

Lemma scan_adds (fs : filesystem) (filter : FileType) (paths : list path)
    (acc : list DocumentEntry) (p : path) (e : DocumentEntry) :
  p ∈ paths → accept p filter = true →
  (∀ list_, e ∈ add fs p list_) →
  e ∈ foldl (scan_step fs filter) acc paths.
Proof.
  revert acc. induction paths as [|q paths IH]; intros acc Hin Hacc He; simpl.
  - by apply not_elem_of_nil in Hin.
  - apply elem_of_cons in Hin as [<-|Hin].
    + apply scan_keeps. unfold scan_step. rewrite Hacc. apply He.
    + by apply IH.
Qed.



(** *** [sort_by_size] *)

Lemma size_path_lt_false (a b : DocumentEntry) :
  size_path_lt a b = false ↔
  size_ b < size_ a
  ∨ (size_ a = size_ b ∧ path_ltb (path_ a) (path_ b) = false).
Proof.
  unfold size_path_lt.
  destruct (N.ltb_spec (size_ a) (size_ b)) as [Hab|Hab]; simpl.
  - split; [discriminate|]. intros [H|[H _]]; lia.
  - destruct (N.ltb_spec (size_ b) (size_ a)) as [Hba|Hba]; simpl.
    + split; [by left|done].
    + split.
      * intros H. right. split; [lia|done].
      * intros [H|[_ H]]; [lia|done].
Qed.

Lemma size_path_lt_asym (a b : DocumentEntry) :
  size_path_lt a b = true → size_path_lt b a = false.
Proof.
  unfold size_path_lt. intros H.
  destruct (N.ltb_spec (size_ a) (size_ b)) as [Hab|Hab],
           (N.ltb_spec (size_ b) (size_ a)) as [Hba|Hba];
    simpl in *; try lia; try done.
  by apply path_ltb_asym.
Qed.

Lemma size_path_not_after_trans (x y z : DocumentEntry) :
  not_after size_path_lt x y → not_after size_path_lt y z →
  not_after size_path_lt x z.
Proof.
  unfold not_after. rewrite !size_path_lt_false.
  intros [H1|[H1 P1]] [H2|[H2 P2]]; try (left; lia).
  right. split; [lia|]. by apply (path_leb_trans _ (path_ y)).
Qed.


(** *** More on [process_batches] *)

Section batches_facts.
Variable base_name : path → string.

Lemma batches_loop_count (batch_size : N) (rest : list DocumentEntry)
    (first_filename last_filename : string) (j : N) (batch : list DocumentEntry) :
  0 < batch_size → N.of_nat (length batch) < batch_size →
  N.of_nat (length (batches_loop base_name batch_size rest
                      first_filename last_filename j batch))
  = match rest with
    | [] => 0
    | _ => (N.of_nat (length batch + length rest) + batch_size - 1) / batch_size
    end.
Proof.
  intros Hpos. revert first_filename last_filename j batch.
  induction rest as [|e rest IH]; intros first_filename last_filename j batch Hlt;
    [done|].
  cbn [batches_loop].
  assert (Hlen : length (batch ++ [e]) = S (length batch))
    by (rewrite length_app; simpl; lia).
  rewrite Hlen.
  destruct (N.eqb_spec (N.of_nat (S (length batch))) batch_size) as [Heq|Hne].
  - rewrite orb_true_l. cbn [length]. rewrite Nat2N.inj_succ, IH by (simpl; lia).
    destruct rest as [|e' rest]; cbn [length].
    + apply N.div_unique with (r := batch_size - 1); lia.
    + replace (N.of_nat (length batch + S (S (length rest))) + batch_size - 1)
        with (1 * batch_size + (N.of_nat (0 + S (length rest)) + batch_size - 1))
        by lia.
      rewrite N.div_add_l by lia. lia.
  - rewrite orb_false_l. destruct rest as [|e' rest]; cbn [length].
    + cbn [negb Nat.eqb andb batches_loop length].
      apply N.div_unique with (r := N.of_nat (length batch)); lia.
    + cbn [negb Nat.eqb andb]. rewrite IH by lia. f_equal.
      cbn [length]. lia.
Qed.

Lemma batches_loop_numbers (batch_size : N) (rest : list DocumentEntry)
    (first_filename last_filename : string) (j : N) (batch : list DocumentEntry) :
  inv_j <$> batches_loop base_name batch_size rest
              first_filename last_filename j batch
  = (λ k, j + N.of_nat k)
      <$> seq 0 (length (batches_loop base_name batch_size rest
                           first_filename last_filename j batch)).
Proof.
  revert first_filename last_filename j batch.
  induction rest as [|e rest IH]; intros first_filename last_filename j batch;
    [done|].
  cbn [batches_loop]. destruct (_ || _); [|apply IH].
  cbn [fmap list_fmap length seq]. f_equal; [simpl; lia|].
  fold (@fmap list _ _ _ inv_j). rewrite IH, <- fmap_S_seq, <- list_fmap_compose.
  apply list_fmap_ext. intros _ k _. simpl. lia.
Qed.

Lemma batches_loop_full (batch_size : N) (rest : list DocumentEntry)
    (first_filename last_filename : string) (j : N) (batch : list DocumentEntry)
    (k : nat) (inv : invocation) :
  batches_loop base_name batch_size rest first_filename last_filename j batch !! k
  = Some inv →
  (S k < length (batches_loop base_name batch_size rest
                   first_filename last_filename j batch))%nat →
  N.of_nat (length (inv_batch inv)) = batch_size.
Proof.
  revert first_filename last_filename j batch k.
  induction rest as [|e rest IH];
    intros first_filename last_filename j batch k Hk Hlen; [done|].
  cbn [batches_loop] in Hk, Hlen.
  destruct (N.eqb_spec (N.of_nat (length (batch ++ [e]))) batch_size) as [Heq|Hne].
  - rewrite orb_true_l in Hk, Hlen. destruct k as [|k].
    + injection Hk as <-. exact Heq.
    + cbn [length] in Hlen. apply (IH _ _ _ _ k Hk). lia.
  - rewrite orb_false_l in Hk, Hlen. destruct rest as [|e' rest].
    + simpl in Hlen. destruct (negb _); simpl in Hlen; lia.
    + destruct (negb _ && _) eqn:Hc; [by rewrite andb_false_r in Hc|].
      by apply (IH _ _ _ _ k Hk).
Qed.

(** X9.  For a batch size of one or more, [process_batches] makes
    [ceil (n / batch_size)] calls for a list of [n] entries, prints them with
    the numbers 1, 2, ... in call order, and every batch but the last holds
    exactly [batch_size] entries. *)
Theorem process_batches_count_and_numbers (batch_size : N)
    (list_ : list DocumentEntry) :
  0 < batch_size →
  N.of_nat (length (process_batches base_name batch_size list_))
  = (N.of_nat (length list_) + batch_size - 1) / batch_size
  ∧ inv_j <$> process_batches base_name batch_size list_
    = (λ k, N.of_nat (S k))
        <$> seq 0 (length (process_batches base_name batch_size list_))
  ∧ ∀ (k : nat) (inv : invocation),
      process_batches base_name batch_size list_ !! k = Some inv →
      (S k < length (process_batches base_name batch_size list_))%nat →
      N.of_nat (length (inv_batch inv)) = batch_size.
Proof.
  intros Hpos. unfold process_batches. split; [|split].
  - rewrite batches_loop_count by (simpl; lia). destruct list_; [|done].
    simpl. symmetry. apply N.div_small. lia.
  - rewrite batches_loop_numbers. apply list_fmap_ext. intros _ k _. lia.
  - intros k inv. apply batches_loop_full.
Qed.

Lemma batches_loop_zero (rest : list DocumentEntry)
    (first_filename last_filename : string) (j : N) (batch : list DocumentEntry) :
  rest ≠ [] →
  ∃ name, batches_loop base_name 0 rest first_filename last_filename j batch
          = [MkInvocation j (batch ++ rest) name].
Proof.
  revert first_filename last_filename j batch.
  induction rest as [|e rest IH]; intros first_filename last_filename j batch Hne;
    [done|].
  cbn [batches_loop].
  assert (Hlen : length (batch ++ [e]) = S (length batch))
    by (rewrite length_app; simpl; lia).
  rewrite Hlen. cbn [Nat.eqb negb andb].
  replace (N.of_nat (S (length batch)) =? 0) with false
    by (symmetry; apply N.eqb_neq; lia).
  rewrite orb_false_l. destruct rest as [|e' rest].
  - eexists. reflexivity.
  - destruct (IH (if String.eqb first_filename "" then base_name (path_ e)
                  else first_filename) (base_name (path_ e)) j (batch ++ [e])
                ltac:(done)) as [name Hname].
    exists name. rewrite Hname. by rewrite <- app_assoc.
Qed.

(** X10.  The two edges of [process_batches]: an empty list gives no call,
    whatever the batch size, and with a batch size of zero a non-empty list
    is handed out whole in a single call, numbered 1. *)
Theorem process_batches_edges :
  (∀ batch_size, process_batches base_name batch_size [] = [])
  ∧ (∀ list_, list_ ≠ [] →
       inv_batch <$> process_batches base_name 0 list_ = [list_]
       ∧ inv_j <$> process_batches base_name 0 list_ = [1]).
Proof.
  split; [done|]. intros list_ Hne. unfold process_batches.
  destruct (batches_loop_zero list_ "" "" 1 [] Hne) as [name ->]. done.
Qed.
End batches_facts.

Lemma process_batches_count_and_numbers_witness :
  N.of_nat (length (process_batches base_name 2 [hidden_txt; b_txt; c_txt]))
  = (N.of_nat (length [hidden_txt; b_txt; c_txt]) + 2 - 1) / 2
  ∧ inv_j <$> process_batches base_name 2 [hidden_txt; b_txt; c_txt]
    = (λ k, N.of_nat (S k))
        <$> seq 0 (length (process_batches base_name 2 [hidden_txt; b_txt; c_txt]))
  ∧ ∀ (k : nat) (inv : invocation),
      process_batches base_name 2 [hidden_txt; b_txt; c_txt] !! k = Some inv →
      (S k < length (process_batches base_name 2 [hidden_txt; b_txt; c_txt]))%nat →
      N.of_nat (length (inv_batch inv)) = 2.
Proof.
  apply (process_batches_count_and_numbers base_name 2 [hidden_txt; b_txt; c_txt]).
  reflexivity.
Defined.

End DocListFacts.

(** ** The multi-size Bloom filter build *)
Module MsbfFacts.
Import DocList Msbf.

Section samples_facts.
Variable sample_extension : string.
Variable double : Type.
Variable to_double : N → double.
Variable calc_bloom_filter_size : N → double → double → result N.

Lemma max_file_size_loop (files : list dirent) (m0 : N) :
  let m := foldl (λ m f, if String.eqb (extension (de_path f)) sample_extension
                         then N.max m (de_file_size f) else m) m0 files in
  m0 ≤ m
  ∧ (∀ f, f ∈ files → is_sample sample_extension f = true → de_file_size f ≤ m)
  ∧ (m = m0
     ∨ ∃ f, f ∈ files ∧ is_sample sample_extension f = true ∧ de_file_size f = m).
Proof.
  unfold is_sample.
  revert m0. induction files as [|f files IH]; intros m0; simpl.
  - split; [lia|]. split; [|by left]. intros f Hin. by apply not_elem_of_nil in Hin.
  - set (m1 := if String.eqb _ _ then _ else _).
    destruct (IH m1) as (Hle & Hall & Hmax). cbv zeta in *.
    assert (Hm1 : m0 ≤ m1
                  ∧ (String.eqb (extension (de_path f)) sample_extension = true →
                     de_file_size f ≤ m1)
                  ∧ (m1 = m0
                     ∨ (String.eqb (extension (de_path f)) sample_extension = true
                        ∧ de_file_size f = m1))).
    { unfold m1. destruct (String.eqb _ _); [|split; [lia|]; split; [done|by left]].
      split; [lia|]. split; [lia|].
      destruct (N.max_spec m0 (de_file_size f)) as [[_ ->]|[_ ->]];
        [by right|by left]. }
    destruct Hm1 as (H0 & Hf & Hm).
    split; [lia|]. split.
    + intros g Hin Hg. apply elem_of_cons in Hin as [->|Hin].
      * specialize (Hf Hg). lia.
      * by apply Hall.
    + destruct Hmax as [->|(g & Hin & Hg & Hsz)].
      * destruct Hm as [->|[Hs Hsz]]; [by left|].
        right. exists f. split; [left|]. done.
      * right. exists g. split; [by right|]. done.
Qed.

(** [max_file_size] is the size of the largest sample file of the group
    (zero for a group without sample files). *)
Lemma max_file_size_largest (files : list dirent) :
  (∀ f, f ∈ files → is_sample sample_extension f = true →
        de_file_size f ≤ max_file_size sample_extension files)
  ∧ ((∃ f, f ∈ files ∧ is_sample sample_extension f = true
           ∧ de_file_size f = max_file_size sample_extension files)
     ∨ max_file_size sample_extension files = 0).
Proof.
  destruct (max_file_size_loop files 0) as (_ & Hall & Hmax).
  split; [exact Hall|]. destruct Hmax as [H|H]; [by right|by left].
Qed.

Lemma samples_loop (in_dir : listing dirent) (out_dir : path)
    (batch_size num_hashes : N) (p : double) (calls0 : list samples_call) :
  Forall (λ g, ∃ m, calc_bloom_filter_size
                      (max_file_size sample_extension g.2 / 8)
                      (to_double num_hashes) p = Ok m) (directories in_dir) →
  ∃ calls,
    foldl (samples_step sample_extension double to_double calc_bloom_filter_size
             out_dir batch_size num_hashes p) (Ok calls0) in_dir
    = Ok (calls0 ++ calls)
    ∧ Forall2 (sized_by_largest sample_extension double to_double
                 calc_bloom_filter_size num_hashes p)
              (directories in_dir) calls.
Proof.
  revert calls0. induction in_dir as [|[d [files|]] in_dir IH];
    intros calls0 Hcalc.
  - exists []. split; [by rewrite app_nil_r|constructor].
  - change (directories ((d, Some files) :: in_dir))
      with ((d, files) :: directories in_dir) in *.
    inversion Hcalc as [|? ? [m Hm] Hrest]; subst. simpl in Hm.
    cbn [foldl]. unfold samples_step at 2. cbn [snd fst]. rewrite Hm.
    destruct (IH (calls0 ++ [MkSamplesCall d (path_append out_dir (filename d)) m
                               (batch_size / 8) num_hashes]) Hrest)
      as (calls & Heq & Hall).
    eexists (_ :: calls). split.
    + rewrite Heq. by rewrite <- app_assoc.
    + constructor; [|exact Hall].
      unfold sized_by_largest. simpl. repeat split; try done;
        apply max_file_size_largest.
  - change (directories ((d, None) :: in_dir)) with (directories in_dir) in *.
    cbn [foldl]. unfold samples_step at 2. cbn [snd fst]. by apply IH.
Qed.
End samples_facts.

(** C8.  For every group directory of the compact build the driver makes
    one call of [create_from_samples], and the Bloom-filter size of that
    call, which all documents of the group share, is the size requirement
    computed from the largest sample file of the group: no sample file of
    the group is larger than the one the size is computed from.  (The
    driver runs to its end when [batch_size] is a multiple of eight and the
    assertions of the size computation hold.) *)
Theorem group_filter_size_from_largest (sample_extension : string)
    (double : Type) (to_double : N → double)
    (calc_bloom_filter_size : N → double → double → result N)
    (in_dir : listing dirent) (out_dir : path) (batch_size num_hashes : N)
    (p : double) :
  batch_size mod 8 = 0 →
  Forall (λ g, ∃ m, calc_bloom_filter_size
                      (max_file_size sample_extension g.2 / 8)
                      (to_double num_hashes) p = Ok m) (directories in_dir) →
  ∃ calls,
    create_bloom_filters_from_samples sample_extension double to_double
      calc_bloom_filter_size in_dir out_dir batch_size num_hashes p = Ok calls
    ∧ Forall2 (sized_by_largest sample_extension double to_double
                 calc_bloom_filter_size num_hashes p)
              (directories in_dir) calls.
Proof.
  intros Hb Hcalc. unfold create_bloom_filters_from_samples.
  apply N.eqb_eq in Hb. rewrite Hb. simpl.
  destruct (samples_loop sample_extension double to_double calc_bloom_filter_size
              in_dir out_dir batch_size num_hashes p [] Hcalc) as (calls & Heq & Hall).
  exists calls. split; [exact Heq|exact Hall].
Qed.

Lemma group_filter_size_from_largest_witness :
  ∃ calls,
    create_bloom_filters_from_samples ".sam" unit (λ _, ()) ten_per_element
      sample_groups "out/bloom1" 64 3 () = Ok calls
    ∧ Forall2 (sized_by_largest ".sam" unit (λ _, ()) ten_per_element 3 ())
              (directories sample_groups) calls.
Proof.
  apply (group_filter_size_from_largest ".sam" unit (λ _, ()) ten_per_element
           sample_groups "out/bloom1" 64 3 ()).
  - reflexivity.
  - simpl. repeat constructor; eexists; reflexivity.
Defined.

(** [create_folders] with groups of two: the samples are spread over the
    group directories in ascending order of size. *)
Lemma create_folders_sample_files :
  create_folders ".sam" sample_files "out/samples" 2
  = Ok [("out/samples/1", [MkDirent "out/samples/1/b.sam" true 800;
                           MkDirent "out/samples/1/d.sam" true 1600]);
        ("out/samples/2", [MkDirent "out/samples/2/a.sam" true 2400])].
Proof. vm_compute. reflexivity. Qed.

(** On the sample groups the two calls carry the sizes computed from 1600
    and 2400 bytes. *)
Lemma sample_groups_calls :
  create_bloom_filters_from_samples ".sam" unit (λ _, ()) ten_per_element
    sample_groups "out/bloom1" 64 3 ()
  = Ok [MkSamplesCall "out/samples/1" "out/bloom1/1" 2000 8 3;
        MkSamplesCall "out/samples/2" "out/bloom1/2" 3000 8 3].
Proof. vm_compute. reflexivity. Qed.

(** *** File names *)

Lemma filename_from_no_slash (b cur : string) :
  has_slash b = false → filename_from b cur = cur.
Proof.
  revert cur. induction b as [|c b IH]; intros cur H; simpl in *; [done|].
  apply orb_false_iff in H as [Hc Hb]. rewrite Hc. by apply IH.
Qed.

Lemma filename_from_has_no_slash (p cur : string) :
  (has_slash p = false → has_slash cur = false) →
  has_slash (filename_from p cur) = false.
Proof.
  revert cur. induction p as [|c p IH]; intros cur H; simpl in *.
  - by apply H.
  - destruct (Ascii.eqb c "/") eqn:Hc; simpl in H.
    + by apply IH.
    + apply IH. exact H.
Qed.

Lemma filename_no_slash (p : path) : has_slash (filename p) = false.
Proof. unfold filename. by apply filename_from_has_no_slash. Qed.

Lemma filename_from_append (d b cur : string) :
  filename_from (d +:+ String "/" b) cur = filename_from b b.
Proof.
  revert cur. induction d as [|c d IH]; intros cur; simpl; [done|].
  destruct (Ascii.eqb c "/"); apply IH.
Qed.

Lemma filename_path_append (d q : path) :
  filename (path_append d (filename q)) = filename q.
Proof.
  unfold path_append, filename at 1.
  change ("/" +:+ filename q) with (String "/" (filename q)).
  rewrite filename_from_append. apply filename_from_no_slash, filename_no_slash.
Qed.

Lemma extension_path_append (d q : path) :
  extension (path_append d (filename q)) = extension q.
Proof. unfold extension. by rewrite filename_path_append. Qed.

(** *** Runs *)

Section runs_facts.
Context {A : Type}.
Implicit Types (l run : list A) (size : nat).

Lemma runs_loop_nonempty size l run :
  Forall (λ r, r ≠ []) (runs_loop size l run).
Proof.
  revert run. induction l as [|x l IH]; intros run; simpl.
  - destruct run; by repeat constructor.
  - destruct (Nat.eqb _ _); [|by apply IH].
    constructor; [by destruct run|by apply IH].
Qed.

Lemma runs_loop_elements (P : A → Prop) size l run :
  Forall P run → Forall P l → Forall (Forall P) (runs_loop size l run).
Proof.
  revert run. induction l as [|x l IH]; intros run Hrun Hl; simpl.
  - destruct run; [constructor|]. constructor; [done|constructor].
  - inversion Hl as [|? ? Hx Hl']; subst.
    assert (Forall P (run ++ [x])) by (apply Forall_app; by repeat constructor).
    destruct (Nat.eqb _ _); [|by apply IH].
    constructor; [done|]. apply IH; [constructor|done].
Qed.

Lemma runs_loop_count_pos size l run :
  l ≠ [] ∨ run ≠ [] → (1 ≤ length (runs_loop size l run))%nat.
Proof.
  revert run. induction l as [|x l IH]; intros run H; simpl.
  - destruct run; [by destruct H|simpl; lia].
  - destruct (Nat.eqb _ _); [simpl; lia|].
    apply IH. right. by destruct run.
Qed.

Lemma runs_loop_count_le size l run :
  (length run < size)%nat →
  (size * length (runs_loop size l run) ≤ length l + length run + size - 1)%nat.
Proof.
  revert run. induction l as [|x l IH]; intros run Hlt; simpl.
  - destruct run; simpl in *; lia.
  - assert (Hlen : length (run ++ [x]) = S (length run))
      by (rewrite length_app; simpl; lia).
    destruct (Nat.eqb _ _) eqn:Heq.
    + apply Nat.eqb_eq in Heq. simpl.
      specialize (IH [] ltac:(simpl; lia)). simpl in IH. nia.
    + apply Nat.eqb_neq in Heq.
      specialize (IH (run ++ [x]) ltac:(lia)). lia.
Qed.

(** With runs of two or more, a level holds one block or fewer blocks than
    the level before. *)
Lemma runs_count size l :
  (2 ≤ size)%nat → l ≠ [] →
  (1 ≤ length (runs size l))%nat
  ∧ (length (runs size l) = 1%nat ∨ length (runs size l) < length l)%nat.
Proof.
  intros Hsize Hl. unfold runs.
  pose proof (runs_loop_count_pos size l [] (or_introl Hl)) as Hpos.
  pose proof (runs_loop_count_le size l [] ltac:(simpl; lia)) as Hle.
  simpl in Hle. split; [exact Hpos|].
  destruct (decide (length (runs_loop size l []) = 1%nat)) as [|Hne]; [by left|].
  right. nia.
Qed.
End runs_facts.

(** *** Levels of the merge *)

Lemma filter_all {A} (P : A → Prop) `{∀ x, Decision (P x)} (l : list A) :
  Forall P l → filter P l = l.
Proof.
  induction 1 as [|x l Hx Hl IH]; [done|].
  rewrite filter_cons_True by done. by rewrite IH.
Qed.

Section levels.
Variable bloom_extension : string.

Lemma combine_step_spec (out_dir : path) (batch_size : N)
    (st : bool * listing block_file) (entry : path * option (list block_file)) :
  combine_step bloom_extension out_dir batch_size st entry
  = if is_active bloom_extension entry
    then ((combine_group bloom_extension out_dir batch_size entry).1,
          st.2 ++ [(combine_group bloom_extension out_dir batch_size entry).2])
    else st.
Proof.
  unfold combine_step, is_active, combine_group.
  destruct entry as [d [files|]]; simpl; [|done].
  destruct (first_header bloom_extension files) as [m k]; simpl.
  by destruct (m =? 0).
Qed.

(** The answer of a level is the answer of the call made for the group
    directory visited last; the answers of the other calls are dropped. *)
Lemma combine_fold (out_dir : path) (batch_size : N)
    (level : listing block_file) (st : bool * listing block_file) :
  foldl (combine_step bloom_extension out_dir batch_size) st level
  = (default st.1
       ((λ e, (combine_group bloom_extension out_dir batch_size e).1)
          <$> list.last (filter (λ e, is_active bloom_extension e = true) level)),
     st.2 ++ ((λ e, (combine_group bloom_extension out_dir batch_size e).2)
                <$> filter (λ e, is_active bloom_extension e = true) level)).
Proof.
  revert st. induction level as [|e level IH]; intros st; simpl.
  - rewrite app_nil_r. by destruct st.
  - rewrite IH, combine_step_spec, filter_cons.
    destruct (is_active bloom_extension e) eqn:He.
    + rewrite decide_True by done. rewrite last_cons. simpl.
      rewrite <- app_assoc. simpl.
      by destruct (list.last (filter _ level)).
    + rewrite decide_False by done. done.
Qed.

Lemma combine_bloom_filters_spec (out_dir : path) (batch_size : N)
    (level : listing block_file) :
  combine_bloom_filters bloom_extension level out_dir batch_size
  = (default false
       ((λ e, (combine_group bloom_extension out_dir batch_size e).1)
          <$> list.last (filter (λ e, is_active bloom_extension e = true) level)),
     (λ e, (combine_group bloom_extension out_dir batch_size e).2)
       <$> filter (λ e, is_active bloom_extension e = true) level).
Proof. unfold combine_bloom_filters. by rewrite combine_fold. Qed.

Lemma merge_run_is_block (out_dir : path) (m k : N) (run : list block_file) :
  run ≠ [] → Forall (λ f, is_block bloom_extension f = true) run →
  is_block bloom_extension (merge_run out_dir m k run) = true.
Proof.
  intros Hne Hall. destruct run as [|f run]; [done|].
  inversion Hall as [|? ? Hf _]; subst.
  unfold is_block, merge_run in *. simpl.
  by rewrite extension_path_append.
Qed.

(** The call made for a group directory the driver combines: its output
    directory is again one the driver combines, it holds one block per run
    of [batch_size] blocks, and the answer tells whether that is one. *)
Lemma combine_group_spec (out_dir : path) (batch_size : N)
    (entry : path * option (list block_file)) :
  is_active bloom_extension entry = true →
  let r := combine_group bloom_extension out_dir batch_size entry in
  let c := length (runs (N.to_nat batch_size)
                     (filter (λ f, is_block bloom_extension f = true)
                             (default [] entry.2))) in
  blocks_in bloom_extension entry ≠ 0%nat
  ∧ r.1 = Nat.eqb c 1
  ∧ is_active bloom_extension r.2 = true
  ∧ blocks_in bloom_extension r.2 = c.
Proof.
  intros Hact. unfold is_active in Hact.
  destruct entry as [d [files|]]; simpl in *; [|discriminate].
  unfold first_header in Hact.
  destruct (filter (λ f, is_block bloom_extension f = true) files)
    as [|f blocks] eqn:Hblocks; simpl in Hact; [discriminate|].
  apply negb_true_iff, N.eqb_neq in Hact.
  unfold combine_group, blocks_in, bloom_filter_combine, first_header. simpl.
  rewrite Hblocks. simpl.
  set (sub := path_append out_dir (filename d)).
  set (rs := runs (N.to_nat batch_size) (f :: blocks)).
  assert (Hall : Forall (λ g, is_block bloom_extension g = true)
                   (merge_run sub (bf_bloom_filter_size f) (bf_num_hashes f) <$> rs)).
  { apply Forall_fmap.
    assert (Hb : Forall (λ g, is_block bloom_extension g = true) (f :: blocks)).
    { rewrite <- Hblocks. apply list.Forall_forall. intros g Hg.
      by apply list_elem_of_filter in Hg as [? _]. }
    pose proof (runs_loop_nonempty (N.to_nat batch_size) (f :: blocks) []) as Hne.
    pose proof (runs_loop_elements _ (N.to_nat batch_size) (f :: blocks) []
                  (Forall_nil _) Hb) as Hel.
    fold (runs (N.to_nat batch_size) (f :: blocks)) in Hne, Hel. fold rs in Hne, Hel.
    clearbody rs. induction rs as [|r rs IH]; [constructor|].
    inversion Hne; inversion Hel; subst.
    constructor; [by apply merge_run_is_block|by apply IH]. }
  rewrite (filter_all _ _ Hall). rewrite length_fmap.
  split; [done|]. split; [reflexivity|]. split; [|reflexivity].
  assert (Hcons : f :: blocks ≠ []) by done.
  pose proof (runs_loop_count_pos (N.to_nat batch_size) (f :: blocks) []
                (or_introl Hcons)) as Hpos.
  fold (runs (N.to_nat batch_size) (f :: blocks)) in Hpos. fold rs in Hpos.
  destruct rs as [|r rs]; simpl in *; [lia|].
  unfold is_active, first_header. cbn [snd].
  rewrite filter_cons_True by (by inversion Hall). simpl.
  apply negb_true_iff, N.eqb_neq. exact Hact.
Qed.

(** One level of the merge, seen from the group that decides it. *)
Lemma level_step (out_dir : path) (batch_size : N) (level : listing block_file)
    (n : nat) :
  (2 ≤ N.to_nat batch_size)%nat →
  deciding bloom_extension level = Some n →
  ∃ c : nat,
    combine_bloom_filters bloom_extension level out_dir batch_size
    = (Nat.eqb c 1,
       (combine_bloom_filters bloom_extension level out_dir batch_size).2)
    ∧ deciding bloom_extension
        (combine_bloom_filters bloom_extension level out_dir batch_size).2 = Some c
    ∧ (1 ≤ c)%nat ∧ (c = 1%nat ∨ c < n)%nat.
Proof.
  intros HB Hdec. unfold deciding in Hdec.
  destruct (list.last (filter (λ e, is_active bloom_extension e = true) level))
    as [e|] eqn:Hlast; [|discriminate].
  injection Hdec as Hn.
  assert (Hact : is_active bloom_extension e = true).
  { apply last_Some_elem_of in Hlast. by apply list_elem_of_filter in Hlast as [? _]. }
  pose proof (combine_group_spec out_dir batch_size) as Hspec. cbv zeta in Hspec.
  rewrite combine_bloom_filters_spec, Hlast.
  remember (combine_group bloom_extension out_dir batch_size) as grp eqn:Hgrp.
  clear Hgrp.
  destruct (Hspec e Hact) as (Hne & Hr & Hact' & Hc).
  set (c := length (runs (N.to_nat batch_size)
                      (filter (λ f, is_block bloom_extension f = true)
                              (default [] e.2)))) in *.
  exists c. cbn [fmap option_fmap option_map default fst snd].
  split; [by rewrite Hr|]. split.
  - unfold deciding. rewrite filter_all.
    + rewrite fmap_last, Hlast. cbn [fmap option_fmap option_map]. by rewrite Hc.
    + apply Forall_fmap, list.Forall_forall. intros g Hg.
      apply list_elem_of_filter in Hg as [Hg _].
      by destruct (Hspec g Hg) as (_ & _ & ? & _).
  - assert (Hblocks : length (filter (λ f, is_block bloom_extension f = true)
                                     (default [] e.2)) = n).
    { rewrite <- Hn. unfold blocks_in. unfold is_active in Hact.
      by destruct e as [d [files|]]. }
    assert (Hnil : filter (λ f, is_block bloom_extension f = true)
                          (default [] e.2) ≠ []).
    { intros Heq. rewrite Heq in Hblocks. simpl in Hblocks. subst n.
      apply Hne. done. }
    destruct (runs_count (N.to_nat batch_size) _ HB Hnil) as [Hpos Hlt].
    fold c in Hpos, Hlt. rewrite Hblocks in Hlt. done.
Qed.

(** The loop of [create_msbf_from_samples] ends, under the reading of the
    missing merge function taken from the specification: with a batch size
    of two or more and at least one group directory that holds blocks of a
    non-zero filter size, some level answers [true]; at that point the
    group directory visited last holds one block. *)
Lemma merge_loop_terminates (bloom_dir : string) (batch_size : N)
    (iteration : N) (level : listing block_file) :
  (2 ≤ N.to_nat batch_size)%nat →
  (∃ e, e ∈ level ∧ is_active bloom_extension e = true) →
  ∃ fuel iteration' final,
    merge_loop bloom_extension fuel bloom_dir batch_size iteration level
    = Some (iteration', final)
    ∧ deciding bloom_extension final = Some 1%nat.
Proof.
  intros HB (e & Hin & Hact).
  assert (Hdec : ∃ n, deciding bloom_extension level = Some n).
  { unfold deciding.
    destruct (list.last (filter (λ e, is_active bloom_extension e = true) level))
      as [g|] eqn:Hlast; [by eexists|].
    apply last_None in Hlast.
    assert (e ∈ filter (λ e, is_active bloom_extension e = true) level)
      by (by apply list_elem_of_filter).
    rewrite Hlast in *. by apply not_elem_of_nil in H. }
  clear e Hin Hact. destruct Hdec as [n Hdec].
  revert iteration level Hdec.
  induction n as [n IH] using lt_wf_ind. intros iteration level Hdec.
  destruct (level_step (bloom_dir +:+ to_string (iteration + 1)) batch_size
              level n HB Hdec) as (c & Heq & Hdec' & Hpos & Hc).
  destruct (decide (c = 1%nat)) as [->|Hne].
  - exists 1%nat, iteration, (combine_bloom_filters bloom_extension level
               (bloom_dir +:+ to_string (iteration + 1)) batch_size).2.
    simpl. rewrite Heq. simpl. done.
  - destruct Hc as [?|Hlt]; [done|].
    destruct (IH c Hlt (iteration + 1) _ Hdec') as (fuel & it' & final & Hloop & Hfin).
    exists (S fuel), it', final. simpl. rewrite Heq.
    apply Nat.eqb_neq in Hne. rewrite Hne. done.
Qed.
End levels.

(** C9.  A first level with two group directories, visited in the order
    [1], [2], the first holding nine blocks and the second one block, is
    merged with a batch size of eight.  The loop makes one call of
    [combine_bloom_filters] and exits with [iteration = 1]: the answer of the
    level is the one for the directory visited last, which holds a single
    block, while the first directory still holds two blocks.  With the
    directories visited in the other order the loop runs a second level and
    leaves one block in each. *)
Theorem merge_loop_exits_before_single_block :
  block_counts ".blo" two_groups = [9; 1]%nat
  ∧ (λ r : N * list (path * option (list block_file)),
       (r.1, block_counts ".blo" r.2))
      <$> merge_loop ".blo" 1 "out/bloom" 8 1 two_groups
    = Some (1, [2; 1]%nat)
  ∧ (λ r : N * list (path * option (list block_file)),
       (r.1, block_counts ".blo" r.2))
      <$> merge_loop ".blo" 2 "out/bloom" 8 1 (reverse two_groups)
    = Some (2, [1; 1]%nat).
Proof. repeat split; vm_compute; reflexivity. Qed.

(** A single group directory of nine blocks is merged in two levels. *)
Lemma merge_loop_one_group :
  (λ r : N * list (path * option (list block_file)),
     (r.1, block_counts ".blo" r.2))
    <$> merge_loop ".blo" 2 "out/bloom" 8 1 one_group
  = Some (2, [1]%nat).
Proof. vm_compute. reflexivity. Qed.

(** *** [create_folders] *)

Lemma append_inj_l (s a b : string) : s +:+ a = s +:+ b → a = b.
Proof.
  induction s as [|c s IH]; intros H; [exact H|].
  change (String c (s +:+ a) = String c (s +:+ b)) in H.
  injection H as H. by apply IH.
Qed.

Lemma to_uint_nonnil (n : N) : N.to_uint n ≠ Nil.
Proof.
  destruct n; simpl; [discriminate|]. apply DecimalPos.Unsigned.to_uint_nonnil.
Qed.

Lemma to_string_inj (a b : N) : to_string a = to_string b → a = b.
Proof.
  unfold to_string. intros H. apply DecimalN.Unsigned.to_uint_inj.
  pose proof (NilZero.usu (N.to_uint a) (to_uint_nonnil a)) as Ha.
  pose proof (NilZero.usu (N.to_uint b) (to_uint_nonnil b)) as Hb.
  rewrite H in Ha. congruence.
Qed.

Lemma group_dir_inj (out_dir : path) (g1 g2 : nat) :
  group_dir out_dir g1 = group_dir out_dir g2 → g1 = g2.
Proof.
  unfold group_dir. intros H.
  apply append_inj_l, (append_inj_l "/"), to_string_inj in H. lia.
Qed.

(** The runs of a list extended by one element: the element joins the run
    left open, which holds [length s mod size] elements. *)
Lemma runs_loop_snoc {A} (size : nat) (s run : list A) (p : A) :
  (length run < size)%nat →
  ∃ (c : list (list A)) (r : list A),
    runs_loop size s run = c ++ match r with [] => [] | _ => [r] end
    ∧ runs_loop size (s ++ [p]) run = c ++ [r ++ [p]]
    ∧ length r = ((length run + length s) mod size)%nat.
Proof.
  revert run. induction s as [|x s IH]; intros run Hlt.
  - exists [], run. simpl. rewrite Nat.add_0_r, Nat.mod_small by done.
    split; [done|]. split; [|done].
    destruct (Nat.eqb _ _); [done|]. by destruct run.
  - assert (Hlen : length (run ++ [x]) = S (length run))
      by (rewrite length_app; simpl; lia).
    cbn [app runs_loop]. rewrite Hlen.
    destruct (Nat.eqb_spec (S (length run)) size) as [Heq|Hne].
    + destruct (IH [] ltac:(simpl; lia)) as (c & r & H1 & H2 & H3).
      exists ((run ++ [x]) :: c), r. rewrite H1, H2. split; [done|].
      split; [done|]. rewrite H3. simpl.
      replace (length run + S (length s))%nat with (length s + 1 * size)%nat by lia.
      by rewrite Nat.Div0.mod_add.
    + destruct (IH (run ++ [x]) ltac:(lia)) as (c & r & H1 & H2 & H3).
      exists c, r. rewrite H1, H2. split; [done|]. split; [done|].
      rewrite H3, Hlen. simpl. f_equal. lia.
Qed.

Section folders_facts.
Variable sample_extension : string.

Lemma group_dir_fresh (out_dir : path) (G : nat → list dirent → list dirent)
    (c : list (list dirent)) :
  Forall (λ g : path * list dirent, g.1 ≠ group_dir out_dir (length c))
         (imap (λ g files, (group_dir out_dir g, G g files)) c).
Proof.
  apply Forall_lookup. intros k g Hk.
  rewrite list_lookup_imap in Hk.
  destruct (c !! k) as [files|] eqn:Hc; [|discriminate].
  injection Hk as <-. simpl. intros Heq.
  apply group_dir_inj in Heq. apply lookup_lt_Some in Hc. lia.
Qed.

Lemma create_directories_fresh (d : path) (tree : list (path * list dirent)) :
  Forall (λ g : path * list dirent, g.1 ≠ d) tree →
  create_directories d tree = tree ++ [(d, [])].
Proof.
  intros Hall. unfold create_directories.
  destruct (existsb (λ g : string * list dirent, String.eqb g.1 d) tree) eqn:He;
    [exfalso|done].
  apply List.existsb_exists in He as (g & Hin & Hg).
  apply String.eqb_eq in Hg. apply list_elem_of_In in Hin.
  by apply (proj1 (list.Forall_forall _ _) Hall g Hin).
Qed.

Lemma rename_into_last (d : path) (p : dirent)
    (tree : list (path * list dirent)) (files : list dirent) :
  Forall (λ g : path * list dirent, g.1 ≠ d) tree →
  rename_into d p (tree ++ [(d, files)]) = tree ++ [(d, files ++ [moved d p])].
Proof.
  intros Hall. unfold rename_into. rewrite fmap_app. f_equal.
  - rewrite <- (list_fmap_id tree) at 2. apply list_fmap_ext. intros k g Hk.
    pose proof (proj1 (Forall_lookup _ _) Hall k g Hk) as Hg.
    destruct g as [name fs]. simpl in *.
    apply String.eqb_neq in Hg. by rewrite Hg.
  - simpl. by rewrite String.eqb_refl.
Qed.

(** Invariant of the loop at lines 22-32 after the sample files [s]. *)
Lemma folders_loop_invariant (out_dir : path) (batch_size : N) (s : list dirent) :
  0 < batch_size →
  N.of_nat (length s) < 2 ^ 64 →
  Forall (λ p, is_sample sample_extension p = true) s →
  let st := foldl (folders_step sample_extension out_dir batch_size)
                  (MkFolders 1 0 "" []) s in
  cf_i st = N.of_nat (length s)
  ∧ cf_batch st = N.of_nat (S (length (runs (N.to_nat batch_size) s)))
  ∧ cf_tree st = grouped out_dir batch_size s
  ∧ (s ≠ [] →
     cf_sub_out_dir st
     = group_dir out_dir (length (runs (N.to_nat batch_size) s) - 1)).
Proof.
  intros Hpos. induction s as [|p s IH] using rev_ind; intros Hlen Hall; cbv zeta.
  - simpl. repeat split; done.
  - apply Forall_app in Hall as [Hall Hp]. inversion Hp as [|? ? Hsample _]; subst.
    rewrite length_app in Hlen. simpl in Hlen.
    destruct (IH ltac:(lia) Hall) as (Hi & Hbatch & Htree & Hsub). clear IH.
    rewrite foldl_app. cbn [foldl].
    set (st := foldl (folders_step sample_extension out_dir batch_size)
                     (MkFolders 1 0 "" []) s) in *.
    unfold grouped in *. unfold runs in *.
    destruct (runs_loop_snoc (N.to_nat batch_size) s [] p ltac:(simpl; lia))
      as (c & r & Hruns & Hruns' & Hr).
    rewrite Hruns' . rewrite Hruns in Hbatch, Htree, Hsub. simpl in Hr.
    assert (Hmod : cf_i st mod batch_size = N.of_nat (length r)).
    { rewrite Hi, Hr, Nat2N.inj_mod, N2Nat.id. done. }
    unfold folders_step. unfold is_sample in Hsample. rewrite Hsample, Hmod.
    rewrite length_app. cbn [length].
    destruct r as [|x r].
    + rewrite app_nil_r in Hbatch, Htree. simpl.
      assert (Hd : out_dir +:+ "/" +:+ to_string (cf_batch st)
                   = group_dir out_dir (length c)).
      { by rewrite Hbatch. }
      rewrite Hd, Htree.
      rewrite create_directories_fresh by apply group_dir_fresh.
      rewrite rename_into_last by apply group_dir_fresh.
      rewrite imap_app. simpl. rewrite Nat.add_0_r.
      rewrite Hi, Hbatch, length_app. simpl.
      split; [rewrite wrap64_small; lia|]. split; [lia|]. split; [done|].
      intros _. f_equal. lia.
    + assert (Hs : s ≠ []).
      { intros ->. simpl in Hr. rewrite Nat.Div0.mod_0_l in Hr. discriminate. }
      specialize (Hsub Hs). rewrite length_app in Hsub, Hbatch. simpl in Hsub, Hbatch.
      replace (length c + 1 - 1)%nat with (length c) in Hsub by lia.
      replace (N.of_nat (S (length r)) =? 0) with false
        by (symmetry; apply N.eqb_neq; lia).
      simpl. rewrite Hsub, Htree, imap_app. simpl. rewrite Nat.add_0_r.
      rewrite rename_into_last by apply group_dir_fresh.
      rewrite imap_app. simpl. rewrite Nat.add_0_r, fmap_app. simpl.
      rewrite Hi, Hbatch, length_app. simpl.
      split; [rewrite wrap64_small; lia|]. split; [lia|]. split; [done|].
      intros _. f_equal. lia.
Qed.

Lemma folders_loop_skips (out_dir : path) (batch_size : N) (paths : list dirent)
    (st : folders_state) :
  foldl (folders_step sample_extension out_dir batch_size) st paths
  = foldl (folders_step sample_extension out_dir batch_size) st
          (filter (λ p, is_sample sample_extension p = true) paths).
Proof.
  revert st. induction paths as [|p paths IH]; intros st; [done|].
  rewrite filter_cons. cbn [foldl].
  destruct (decide (is_sample sample_extension p = true)) as [Hp|Hp].
  - cbn [foldl]. apply IH.
  - rewrite <- IH. f_equal. unfold folders_step. unfold is_sample in Hp.
    by destruct (String.eqb _ _).
Qed.

Lemma create_folders_spec (in_dir : list dirent) (out_dir : path)
    (batch_size : N) :
  0 < batch_size →
  N.of_nat (length in_dir) < 2 ^ 64 →
  create_folders sample_extension in_dir out_dir batch_size
  = Ok (grouped out_dir batch_size (samples_in_order sample_extension in_dir)).
Proof.
  intros Hpos Hlen. unfold create_folders.
  replace (batch_size =? 0) with false by (symmetry; apply N.eqb_neq; lia).
  simpl. f_equal. rewrite folders_loop_skips.
  fold (samples_in_order sample_extension in_dir).
  apply (folders_loop_invariant out_dir batch_size
           (samples_in_order sample_extension in_dir) Hpos).
  - unfold samples_in_order.
    pose proof (length_filter (λ p, is_sample sample_extension p = true)
                  (std_sort (λ p1 p2, de_file_size p1 <? de_file_size p2)
                     (filter (λ p, de_is_regular_file p = true) in_dir))) as H1.
    pose proof (Permutation_length
                  (DocListFacts.std_sort_perm
                     (λ p1 p2, de_file_size p1 <? de_file_size p2)
                     (filter (λ p, de_is_regular_file p = true) in_dir))) as H2.
    pose proof (length_filter (λ p, de_is_regular_file p = true) in_dir) as H3.
    lia.
  - unfold samples_in_order. apply list.Forall_forall. intros p Hp.
    by apply list_elem_of_filter in Hp as [? _].
Qed.

End folders_facts.


Lemma runs_loop_concat {A} (size : nat) (l run : list A) :
  concat (runs_loop size l run) = run ++ l.
Proof.
  revert run. induction l as [|x l IH]; intros run; simpl.
  - destruct run; simpl; by rewrite ?app_nil_r.
  - destruct (Nat.eqb _ _); simpl; rewrite IH; simpl; by rewrite <- ?app_assoc.
Qed.

Lemma runs_loop_lengths {A} (size : nat) (l run : list A) :
  (length run < size)%nat →
  Forall (λ r, (length r ≤ size)%nat) (runs_loop size l run).
Proof.
  revert run. induction l as [|x l IH]; intros run Hlt; simpl.
  - destruct run; repeat constructor. lia.
  - assert (Hlen : length (run ++ [x]) = S (length run))
      by (rewrite length_app; simpl; lia).
    rewrite Hlen.
    destruct (Nat.eqb_spec (S (length run)) size) as [Heq|Hne].
    + constructor; [lia|]. apply IH. simpl. lia.
    + apply IH. lia.
Qed.

(** A run that is followed by another one is full. *)
Lemma runs_loop_full {A} (size : nat) (l run r : list A) (i : nat) :
  (length run < size)%nat →
  runs_loop size l run !! i = Some r →
  is_Some (runs_loop size l run !! S i) →
  length r = size.
Proof.
  revert run i. induction l as [|x l IH]; intros run i Hlt Hr Hnext; simpl in *.
  - destruct run; [by rewrite lookup_nil in Hr|].
    destruct Hnext as [? Hn]. destruct i; discriminate Hn.
  - assert (Hlen : length (run ++ [x]) = S (length run))
      by (rewrite length_app; simpl; lia).
    rewrite Hlen in *.
    destruct (Nat.eqb_spec (S (length run)) size) as [Heq|Hne].
    + destruct i as [|i]; simpl in *.
      * injection Hr as <-. lia.
      * apply (IH [] i); [simpl; lia|done|done].
    + apply (IH (run ++ [x]) i); [lia|done|done].
Qed.

Lemma StronglySorted_app_parts {A} (R : A → A → Prop) (l1 l2 : list A) :
  StronglySorted R (l1 ++ l2) →
  StronglySorted R l2 ∧ ∀ x y, x ∈ l1 → y ∈ l2 → R x y.
Proof.
  induction l1 as [|a l1 IH]; simpl; intros Hs.
  - split; [done|]. intros x y Hx. by apply elem_of_nil in Hx.
  - inversion Hs as [|? ? Hs' Ha]; subst. destruct (IH Hs') as [H2 Hx].
    split; [done|]. intros x y Hin Hy.
    apply elem_of_cons in Hin as [->|Hin]; [|by apply Hx].
    apply (proj1 (list.Forall_forall _ _) Ha). apply elem_of_app. by right.
Qed.

Lemma elem_of_concat_lookup {A} (ls : list (list A)) (j : nat) (b : list A)
    (y : A) :
  ls !! j = Some b → y ∈ b → y ∈ concat ls.
Proof.
  revert j. induction ls as [|l ls IH]; intros j Hj Hy;
    [by rewrite lookup_nil in Hj|].
  simpl. apply elem_of_app. destruct j as [|j]; simpl in Hj.
  - injection Hj as ->. by left.
  - right. by apply (IH j).
Qed.

Lemma sorted_across_runs {A} (R : A → A → Prop) (ls : list (list A))
    (i j : nat) (a b : list A) (x y : A) :
  StronglySorted R (concat ls) → (i < j)%nat →
  ls !! i = Some a → ls !! j = Some b → x ∈ a → y ∈ b → R x y.
Proof.
  revert i j. induction ls as [|l ls IH]; intros i j Hs Hij Ha Hb Hx Hy;
    [by rewrite lookup_nil in Ha|].
  simpl in Hs. destruct j as [|j]; [lia|]. simpl in Hb.
  destruct i as [|i]; simpl in Ha.
  - injection Ha as ->.
    apply (proj2 (StronglySorted_app_parts _ _ _ Hs) x y Hx).
    by apply (elem_of_concat_lookup ls j b).
  - apply (IH i j); [|lia|done|done|done|done].
    by apply StronglySorted_app_parts in Hs as [Hs _].
Qed.

Lemma StronglySorted_filter_keeps {A} (R : A → A → Prop) (P : A → Prop)
    `{∀ x, Decision (P x)} (l : list A) :
  StronglySorted R l → StronglySorted R (filter P l).
Proof.
  induction 1 as [|x l Hs IH Hx]; [constructor|].
  rewrite filter_cons. destruct (decide (P x)); [|done].
  constructor; [done|]. apply list.Forall_forall. intros y Hy.
  apply list_elem_of_filter in Hy as [_ Hy].
  by apply (proj1 (list.Forall_forall _ _) Hx).
Qed.

Lemma samples_in_order_sorted (ext : string) (in_dir : list dirent) :
  StronglySorted (not_after (λ p1 p2, de_file_size p1 <? de_file_size p2))
                 (samples_in_order ext in_dir).
Proof.
  unfold samples_in_order. apply StronglySorted_filter_keeps.
  apply DocListFacts.std_sort_sorted.
  - intros x y Hxy. apply N.ltb_lt in Hxy. apply N.ltb_ge. lia.
  - unfold not_after. intros x y z Hxy Hyz.
    apply N.ltb_ge in Hxy, Hyz. apply N.ltb_ge. lia.
Qed.



(** *** Failures and calls of [create_bloom_filters_from_samples] *)

Section samples_calls_facts.
Variable sample_extension : string.
Variable double : Type.
Variable to_double : N → double.
Variable calc_bloom_filter_size : N → double → double → result N.

Lemma samples_step_failed (out_dir : path) (batch_size num_hashes : N)
    (p : double) (acc : result (list samples_call)) (in_dir : listing dirent) :
  (∀ calls, acc ≠ Ok calls) →
  foldl (samples_step sample_extension double to_double calc_bloom_filter_size
           out_dir batch_size num_hashes p) acc in_dir = acc.
Proof.
  intros Hacc. induction in_dir as [|e in_dir IH]; [done|].
  cbn [foldl]. unfold samples_step at 2.
  destruct acc as [calls| |]; [by destruct (Hacc calls)|exact IH|exact IH].
Qed.

Lemma samples_fold_inv (out_dir : path) (batch_size num_hashes : N) (p : double)
    (in_dir : listing dirent) (acc : result (list samples_call))
    (calls : list samples_call) :
  foldl (samples_step sample_extension double to_double calc_bloom_filter_size
           out_dir batch_size num_hashes p) acc in_dir = Ok calls →
  ∃ calls0 new,
    acc = Ok calls0 ∧ calls = calls0 ++ new
    ∧ cfs_in_dir <$> new = fst <$> directories in_dir
    ∧ Forall (λ c, cfs_block_size c = batch_size / 8
                   ∧ cfs_out_dir c = path_append out_dir (filename (cfs_in_dir c))
                   ∧ cfs_num_hashes c = num_hashes) new.
Proof.
  revert acc. induction in_dir as [|[d [files|]] in_dir IH]; intros acc Hfold.
  - simpl in Hfold. exists calls, []. by rewrite app_nil_r.
  - change (directories ((d, Some files) :: in_dir))
      with ((d, files) :: directories in_dir).
    cbn [foldl] in Hfold.
    destruct (IH _ Hfold) as (calls1 & new1 & Hstep & -> & Hdirs & Hall).
    unfold samples_step in Hstep. cbn [snd fst] in Hstep.
    destruct acc as [calls0| |]; [|discriminate|discriminate].
    destruct (calc_bloom_filter_size _ _ _) as [m| |];
      [|discriminate|discriminate].
    injection Hstep as <-.
    eexists calls0, (_ :: new1). split; [done|].
    split; [by rewrite <- app_assoc|].
    split; [by rewrite !fmap_cons, Hdirs|]. by constructor.
  - change (directories ((d, None) :: in_dir)) with (directories in_dir).
    cbn [foldl] in Hfold.
    destruct (IH _ Hfold) as (calls1 & new1 & Hstep & -> & Hdirs & Hall).
    unfold samples_step in Hstep. cbn [snd fst] in Hstep.
    destruct acc as [calls0| |]; [|discriminate|discriminate].
    injection Hstep as <-. by exists calls0, new1.
Qed.

(** X14.  [create_bloom_filters_from_samples] stops at the first group
    directory whose size computation fails an assertion: when the batch
    size is a multiple of eight and the computation succeeds for the
    group directories visited before it, the run ends with the failure of
    that group, whatever follows it in the directory. *)
Theorem first_failing_group_aborts (before after : listing dirent) (d : path)
    (files : list dirent) (out_dir : path) (batch_size num_hashes : N)
    (p : double) (msg : string) :
  batch_size mod 8 = 0 →
  Forall (λ g, ∃ m, calc_bloom_filter_size
                      (max_file_size sample_extension g.2 / 8)
                      (to_double num_hashes) p = Ok m) (directories before) →
  calc_bloom_filter_size (max_file_size sample_extension files / 8)
    (to_double num_hashes) p = Exit msg →
  create_bloom_filters_from_samples sample_extension double to_double
    calc_bloom_filter_size (before ++ (d, Some files) :: after) out_dir
    batch_size num_hashes p = Exit msg.
Proof.
  intros Hb Hbefore Hfail. unfold create_bloom_filters_from_samples.
  apply N.eqb_eq in Hb. rewrite Hb. cbn [negb].
  rewrite foldl_app.
  destruct (samples_loop sample_extension double to_double calc_bloom_filter_size
              before out_dir batch_size num_hashes p [] Hbefore)
    as (calls & -> & _).
  cbn [foldl]. unfold samples_step at 2. cbn [snd fst app]. rewrite Hfail.
  by apply samples_step_failed.
Qed.

(** X15.  When [create_bloom_filters_from_samples] runs to its end, the
    batch size is a multiple of eight and there is one call of
    [create_from_samples] per sub-directory of the input directory, in
    the order of the directory; every call writes to the directory of the
    same name below [out_dir], with a block size of an eighth of the batch
    size and the number of hash functions given. *)
Theorem samples_calls_follow_directories (in_dir : listing dirent)
    (out_dir : path) (batch_size num_hashes : N) (p : double)
    (calls : list samples_call) :
  create_bloom_filters_from_samples sample_extension double to_double
    calc_bloom_filter_size in_dir out_dir batch_size num_hashes p = Ok calls →
  batch_size mod 8 = 0
  ∧ cfs_in_dir <$> calls = fst <$> directories in_dir
  ∧ Forall (λ c, 8 * cfs_block_size c = batch_size
                 ∧ cfs_out_dir c = path_append out_dir (filename (cfs_in_dir c))
                 ∧ cfs_num_hashes c = num_hashes) calls.
Proof.
  unfold create_bloom_filters_from_samples. intros Hrun.
  destruct (N.eqb_spec (batch_size mod 8) 0) as [Hb|Hb]; [|discriminate].
  cbn [negb] in Hrun. split; [done|].
  destruct (samples_fold_inv _ _ _ _ _ _ _ Hrun)
    as (calls0 & new & Hacc & -> & Hdirs & Hall).
  injection Hacc as <-. cbn [app]. split; [done|].
  eapply List.Forall_impl; [|exact Hall]. intros c (Hbs & Hout & Hk).
  split; [|done]. rewrite Hbs.
  pose proof (N.div_mod batch_size 8). lia.
Qed.
End samples_calls_facts.

(** A stand-in for the size computation whose first assertion fails for
    a group without sample data. *)
Lemma first_failing_group_aborts_witness :
  create_bloom_filters_from_samples ".sam" unit (λ _, ())
    (λ n _ _, if n =? 0 then Exit "assert(result > 0)" else Ok (n * 10))
    ([("out/samples/1", Some [MkDirent "out/samples/1/a.sam" true 800])]
       ++ ("out/samples/2", Some []) :: [("out/samples/3", Some [])])
    "out/bloom1" 64 3 ()
  = Exit "assert(result > 0)".
Proof.
  apply (first_failing_group_aborts ".sam" unit (λ _, ())
           (λ n _ _, if n =? 0 then Exit "assert(result > 0)" else Ok (n * 10))).
  - reflexivity.
  - simpl. repeat constructor. eexists. reflexivity.
  - reflexivity.
Defined.

Lemma samples_calls_follow_directories_witness :
  64 mod 8 = 0
  ∧ cfs_in_dir <$> [MkSamplesCall "out/samples/1" "out/bloom1/1" 2000 8 3;
                    MkSamplesCall "out/samples/2" "out/bloom1/2" 3000 8 3]
    = fst <$> directories sample_groups
  ∧ Forall (λ c, 8 * cfs_block_size c = 64
                 ∧ cfs_out_dir c = path_append "out/bloom1" (filename (cfs_in_dir c))
                 ∧ cfs_num_hashes c = 3)
      [MkSamplesCall "out/samples/1" "out/bloom1/1" 2000 8 3;
       MkSamplesCall "out/samples/2" "out/bloom1/2" 3000 8 3].
Proof.
  apply (samples_calls_follow_directories ".sam" unit (λ _, ()) ten_per_element
           sample_groups "out/bloom1" 64 3 ()).
  vm_compute. reflexivity.
Defined.

(** X13.  [combine_bloom_filters] on a level directory none of whose
    entries is a directory with a block of a filter size other than zero
    calls nothing, writes nothing and answers [false]. *)
Theorem combine_bloom_filters_nothing_to_do (bloom_extension : string)
    (level : listing block_file) (out_dir : path) (batch_size : N) :
  Forall (λ e, is_active bloom_extension e = false) level →
  combine_bloom_filters bloom_extension level out_dir batch_size = (false, []).
Proof.
  intros Hall. rewrite combine_bloom_filters_spec.
  assert (Hnone : filter (λ e, is_active bloom_extension e = true) level = []).
  { induction Hall as [|e l He _ IH]; [done|].
    rewrite filter_cons, decide_False by congruence. exact IH. }
  by rewrite Hnone.
Qed.

Lemma combine_bloom_filters_nothing_to_do_witness :
  combine_bloom_filters ".blo"
    [("out/bloom1/notes.txt", None);
     ("out/bloom1/1", Some [MkBlock "out/bloom1/1/readme" 64 3 []]);
     ("out/bloom1/2", Some [MkBlock "out/bloom1/2/b0.blo" 0 3 ["doc0"]])]
    "out/bloom2" 8
  = (false, []).
Proof.
  apply (combine_bloom_filters_nothing_to_do ".blo").
  repeat constructor.
Defined.

End MsbfFacts.
